(** * Schema composition gateway: a shallow embedding

  The development follows the two TypeScript sources of the gateway:

  - [src/index.ts]: [main], [collectLocalExtensions],
    [collectRemoteExtensions], [getExecutableFallbackSchema];
  - [src/framework/schema/monolith-proxy/index.ts]:
    [createMonolithProxySchema], and the [prepareForServer] entry point
    that follows it.

  Asynchronous functions are sequential here ([await] on every call), so
  they are embedded in a small writer-and-exception monad: a computation
  yields the events it performed, in order, and either a thrown JavaScript
  error or a value. *)

From Stdlib Require Import String Ascii List.
From stdpp Require Import base option list strings gmap fin_maps pretty.
Import ListNotations.

Open Scope string_scope.
Open Scope list_scope.

(** ** JavaScript values shared by both files *)

Module Js.

(** An [Error] object: the constructor's name and the message. *)
Record Error := mkError { err_name : string; err_message : string }.

#[global] Instance Error_eq_dec : EqDecision Error.
Proof. solve_decision. Defined.

(** [new Error(msg)] *)
Definition newError (msg : string) : Error := mkError "Error" msg.

(** The error [assert(false, msg)] throws (node's [assert] module). *)
Definition assertionError (msg : string) : Error :=
  mkError "AssertionError" msg.

(** [xs.join(sep)] *)
Fixpoint join (sep : string) (xs : list string) : string :=
  match xs with
  | [] => EmptyString
  | [x] => x
  | x :: rest => x +:+ sep +:+ join sep rest
  end.

(** [t.includes(s)] *)
Fixpoint includes (s t : string) : bool :=
  String.prefix s t
  || match t with
     | EmptyString => false
     | String _ t' => includes s t'
     end.

(** The newline of a template literal. *)
Definition nl : string := String (ascii_of_nat 10) EmptyString.

(** The double-quote character inside a string literal. *)
Definition dq : string := String (ascii_of_nat 34) EmptyString.

End Js.

(** ** Type-definition documents (what [gql] parses) *)

Module Ast.

Inductive Kind :=
| ObjectKind | InputObjectKind | ScalarKind
| InterfaceKind | UnionKind | EnumKind.

#[global] Instance Kind_eq_dec : EqDecision Kind.
Proof. solve_decision. Defined.

(** A directive use, [@name(arg: "value", ...)]. *)
Record Directive := mkDirective {
  d_name : string;
  d_args : list (string * string)
}.

(** A field of a type definition: [name: type @directives]. *)
Record FieldDef := mkFieldDef {
  fd_name : string;
  fd_type : string;
  fd_directives : list Directive
}.

Inductive Definition_ :=
| TypeDefinition (k : Kind) (name : string) (fields : list FieldDef)
| TypeExtension (name : string) (fields : list FieldDef)
| DirectiveDefinition (name : string) (args : list (string * string))
                      (locations : list string).

(** A parsed document is the sequence of its definitions. *)
Definition Document := list Definition_.



#[global] Instance Directive_eq_dec : EqDecision Directive.
Proof. solve_decision. Defined.
#[global] Instance FieldDef_eq_dec : EqDecision FieldDef.
Proof. solve_decision. Defined.
#[global] Instance Definition_eq_dec : EqDecision Definition_.
Proof. solve_decision. Defined.

End Ast.
Export Ast.

(** ** [./FunctionDirectiveVisitor]: the directive rewriter *)

Module FunctionDirective.

(** Modelled from the spec: the separator put between the package name and
    the raw function name; [./FunctionDirectiveVisitor] is not among the
    sources and the spec calls the value illustrative. *)
Definition separator : string := "::".

(** The directive the gateway recognises, [@function(name: ...)]. *)
Definition directiveName : string := "function".

Definition qualify (pkg raw : string) : string := pkg +:+ separator +:+ raw.

Definition rewriteArg (pkg : string) (a : string * string) : string * string :=
  if String.eqb (fst a) "name" then (fst a, qualify pkg (snd a)) else a.

Definition rewriteDirective (pkg : string) (d : Directive) : Directive :=
  if String.eqb (d_name d) directiveName
  then mkDirective (d_name d) (map (rewriteArg pkg) (d_args d))
  else d.

Definition rewriteField (pkg : string) (f : FieldDef) : FieldDef :=
  mkFieldDef (fd_name f) (fd_type f)
             (map (rewriteDirective pkg) (fd_directives f)).

Definition rewriteDefinition (pkg : string) (d : Definition_) : Definition_ :=
  match d with
  | TypeDefinition k n fs => TypeDefinition k n (map (rewriteField pkg) fs)
  | TypeExtension n fs => TypeExtension n (map (rewriteField pkg) fs)
  | DirectiveDefinition _ _ _ => d
  end.

(** Modelled from the spec: [prependPkgNameToFunctionDirectives(schemaDef,
    pkg)] of [./FunctionDirectiveVisitor], which is not among the sources.
    Every occurrence of the function directive in the document gets its
    [name] argument rewritten from [name] to [pkg + separator + name]; the
    source mutates the document in place, so this is the document's new
    content. *)
Definition prependPkgNameToFunctionDirectives
    (schemaDef : Document) (pkg : string) : Document :=
  map (rewriteDefinition pkg) schemaDef.

End FunctionDirective.


(** ** Executable schemas *)

Module Schema.

(** How a field is executed.  A field without a resolver of its own gets
    the default one; local packages supply functions; a field carrying the
    function directive is dispatched to an externally hosted function; a
    monolith field is forwarded over the link. *)
Inductive Resolver :=
| DefaultResolver
| LocalFunction (handler : string)
| ExternalFunctionCall (namespacedName : string)
| RemoteDelegate (uri : string).

#[global] Instance Resolver_eq_dec : EqDecision Resolver.
Proof. solve_decision. Defined.

Record Field := mkField {
  f_type : string;
  f_directives : list Directive;
  f_resolve : Resolver
}.

#[global] Instance Field_eq_dec : EqDecision Field.
Proof. solve_decision. Defined.

(** A named type, with the object returned by [getFields()]. *)
Record NamedType := mkNamedType {
  t_kind : Kind;
  t_fields : gmap string Field
}.

#[global] Instance NamedType_eq_dec : EqDecision NamedType.
Proof. solve_decision. Defined.

Record GraphQLSchema := mkSchema {
  s_types : gmap string NamedType;
  s_directives : gset string
}.

#[global] Instance GraphQLSchema_eq_dec : EqDecision GraphQLSchema.
Proof. solve_decision. Defined.

Definition emptySchema : GraphQLSchema := mkSchema ∅ ∅.

(** [schema.getType(name)] *)
Definition getType (s : GraphQLSchema) (name : string) : option NamedType :=
  s_types s !! name.

(** [isInputObjectType(t)], with [t] possibly undefined. *)
Definition isInputObjectType (t : option NamedType) : bool :=
  match t with
  | Some ty => bool_decide (t_kind ty = InputObjectKind)
  | None => false
  end.

(** [Object.prototype.hasOwnProperty.call(fields, name)] *)
Definition hasOwnProperty (fields : gmap string Field) (name : string) : bool :=
  bool_decide (is_Some (fields !! name)).

(** The field of a type, when the schema has both. *)
Definition getField (s : GraphQLSchema) (typeName fieldName : string)
  : option Field :=
  getType s typeName ≫= λ ty, t_fields ty !! fieldName.

(** The map of resolver functions given to [makeExecutableSchema], keyed by
    type and field name. *)
Definition Resolvers := gmap (string * string) string.

Definition resolverOf (rs : gmap (string * string) string)
    (typeName fieldName : string) : Resolver :=
  match rs !! (typeName, fieldName) with
  | Some h => LocalFunction h
  | None => DefaultResolver
  end.

Definition schemaError (msg : string) : Js.Error :=
  Js.mkError "SchemaParseError" msg.

(** Fields of one definition added to a type's field object; a field name
    may be defined once. *)
Fixpoint addFields (rs : gmap (string * string) string) (typeName : string)
    (fds : list FieldDef) (acc : gmap string Field)
  : Js.Error + gmap string Field :=
  match fds with
  | [] => inr acc
  | fd :: rest =>
      match acc !! fd_name fd with
      | Some _ =>
          inl (schemaError ("Field " +:+ typeName +:+ "." +:+ fd_name fd
                            +:+ " can only be defined once."))
      | None =>
          addFields rs typeName rest
            (<[fd_name fd :=
                 mkField (fd_type fd) (fd_directives fd)
                         (resolverOf rs typeName (fd_name fd))]> acc)
      end
  end.

Definition addDefinition (rs : gmap (string * string) string)
    (s : GraphQLSchema) (d : Definition_) : Js.Error + GraphQLSchema :=
  match d with
  | TypeDefinition k name fds =>
      match s_types s !! name with
      | Some _ =>
          inl (schemaError ("Type " +:+ name +:+ " was defined more than once."))
      | None =>
          match addFields rs name fds ∅ with
          | inl e => inl e
          | inr fs =>
              inr (mkSchema (<[name := mkNamedType k fs]> (s_types s))
                            (s_directives s))
          end
      end
  | TypeExtension name fds =>
      match s_types s !! name with
      | None =>
          inl (schemaError ("Cannot extend type " +:+ name
                            +:+ " because it is not defined."))
      | Some ty =>
          match addFields rs name fds (t_fields ty) with
          | inl e => inl e
          | inr fs =>
              inr (mkSchema (<[name := mkNamedType (t_kind ty) fs]> (s_types s))
                            (s_directives s))
          end
      end
  | DirectiveDefinition name _ _ =>
      inr (mkSchema (s_types s) ({[name]} ∪ s_directives s))
  end.

Fixpoint addDefinitions (rs : gmap (string * string) string)
    (s : GraphQLSchema) (ds : list Definition_) : Js.Error + GraphQLSchema :=
  match ds with
  | [] => inr s
  | d :: rest =>
      match addDefinition rs s d with
      | inl e => inl e
      | inr s' => addDefinitions rs s' rest
      end
  end.

(** Modelled from the spec: [makeExecutableSchema({ typeDefs, resolvers })]
    of the [apollo-server] package, which is not among the sources.  The
    documents of [typeDefs] are taken in array order, definition by
    definition: an extension needs the type it extends to be declared
    already (the root type "must exist before extensions can reference"
    it), a type or a field declared twice is rejected, and a document that
    is rejected fails the whole build.  Each field gets the resolver given
    for it, or the default one. *)
Definition makeExecutableSchema (typeDefs : list Document)
    (resolvers : gmap (string * string) string) : Js.Error + GraphQLSchema :=
  addDefinitions resolvers emptySchema (List.concat typeDefs).

(** Modelled from the spec: [makeRemoteExecutableSchema({ schema, link })]
    of the [apollo-server] package, which is not among the sources: the
    introspected schema with every field resolved by a pass-through
    delegate over the link. *)
Definition makeRemoteExecutableSchema (schema : GraphQLSchema) (uri : string)
  : GraphQLSchema :=
  mkSchema
    ((λ ty, mkNamedType (t_kind ty)
              ((λ f, mkField (f_type f) (f_directives f) (RemoteDelegate uri))
                 <$> t_fields ty))
       <$> s_types schema)
    (s_directives schema).

(** The [name] argument of a field's function directive, if it has one. *)
Definition functionName (ds : list Directive) : option string :=
  d ← List.find (λ d, String.eqb (d_name d) FunctionDirective.directiveName) ds;
  snd <$> List.find (λ a, String.eqb (fst a) "name") (d_args d).

Definition bindField (f : Field) : Field :=
  match functionName (f_directives f) with
  | Some n => mkField (f_type f) (f_directives f) (ExternalFunctionCall n)
  | None => f
  end.

(** Modelled from the spec: [FunctionDirectiveVisitor.visitSchemaDirectives(
    schema, { function: FunctionDirectiveVisitor })] of
    [./FunctionDirectiveVisitor], which is not among the sources.  Every
    field carrying the function directive is bound to a resolver that calls
    the externally hosted function the directive names; the source mutates
    the schema object, so this is the schema's new content. *)
Definition visitSchemaDirectives (s : GraphQLSchema) : GraphQLSchema :=
  mkSchema
    ((λ ty, mkNamedType (t_kind ty) (bindField <$> t_fields ty)) <$> s_types s)
    (s_directives s).

Definition conflictError (typeName : string) : Js.Error :=
  Js.mkError "CompositionConflictError"
    ("Type " +:+ typeName +:+ " is redefined with an incompatible shape.").

(** The type names of [later] whose kind differs from the one [acc] has. *)
Definition conflicts (acc later : gmap string NamedType) : list string :=
  omap (λ p, match acc !! p.1 with
             | Some ty => if decide (t_kind ty = t_kind p.2) then None
                          else Some p.1
             | None => None
             end)
       (map_to_list later).

(** One type layered on top of the accumulated one: same-named fields are
    replaced whole, new fields are added. *)
Definition layerType (later acc : NamedType) : option NamedType :=
  Some (mkNamedType (t_kind later) (t_fields later ∪ t_fields acc)).

Definition layer (acc later : GraphQLSchema) : Js.Error + GraphQLSchema :=
  match conflicts (s_types acc) (s_types later) with
  | name :: _ => inl (conflictError name)
  | [] =>
      inr (mkSchema (union_with layerType (s_types later) (s_types acc))
                    (s_directives later ∪ s_directives acc))
  end.

Fixpoint layerAll (acc : GraphQLSchema) (schemas : list GraphQLSchema)
  : Js.Error + GraphQLSchema :=
  match schemas with
  | [] => inr acc
  | s :: rest =>
      match layer acc s with
      | inl e => inl e
      | inr acc' => layerAll acc' rest
      end
  end.

(** Modelled from the spec: [mergeSchemas({ schemas })] of the
    [apollo-server] package, which is not among the sources.  The input must
    be non-empty; its first element is the base, and each subsequent
    schema is layered on top of the accumulated result in array order:
    identical (typeName, fieldName) pairs are replaced, not combined, new
    types and fields are added, and a type redefined with another kind is a
    fatal composition error. *)
Definition mergeSchemas (schemas : list GraphQLSchema)
  : Js.Error + GraphQLSchema :=
  match schemas with
  | [] => inl (Js.newError "mergeSchemas needs at least one schema")
  | base :: rest => layerAll base rest
  end.

End Schema.
Export Schema.


(** ** Effects: what a run does, in order *)

Module Run.

Inductive DirectiveVisitor := FunctionDirectiveVisitor.

#[global] Instance DirectiveVisitor_eq_dec : EqDecision DirectiveVisitor.
Proof. solve_decision. Defined.

(** The options object given to [new ApolloServer(...)]. *)
Record ServerConfig := mkServerConfig {
  schema : GraphQLSchema;
  dataSources : gmap string string;
  schemaDirectives : list (string * DirectiveVisitor)
}.

#[global] Instance ServerConfig_eq_dec : EqDecision ServerConfig.
Proof. solve_decision. Defined.

Inductive Event :=
| ConsoleLog (msg : string)
| ConsoleError (e : Js.Error)
| ProcessExit (code : nat)
| LoggerInfo (msg : string)
| LoggerError (msg : string)
| VisitSchemaDirectives (target : GraphQLSchema)
| MergeSchemas (schemas : list GraphQLSchema)
| NewApolloServer (config : ServerConfig)
| Listen.

#[global] Instance Event_eq_dec : EqDecision Event.
Proof. solve_decision. Defined.

(** The schemas the directive visitor was applied to, and the servers
    constructed, in the order of the trace. *)
Definition visits (t : list Event) : list GraphQLSchema :=
  omap (λ e, match e with VisitSchemaDirectives s => Some s | _ => None end) t.

Definition servers (t : list Event) : list ServerConfig :=
  omap (λ e, match e with NewApolloServer c => Some c | _ => None end) t.

Definition merges (t : list Event) : list (list GraphQLSchema) :=
  omap (λ e, match e with MergeSchemas l => Some l | _ => None end) t.

(** A computation: the events performed, oldest first, and either the error
    thrown or the value returned. *)
Definition M (A : Type) : Type := list Event * (Js.Error + A).

#[global] Instance M_ret : MRet M := λ A a, ([], inr a).

#[global] Instance M_bind : MBind M := λ A B f m,
  match m with
  | (t, inl e) => (t, inl e)
  | (t, inr a) => let '(t', r) := f a in (t ++ t', r)
  end.

Definition emit (e : Event) : M unit := ([e], inr tt).

Definition throw {A} (e : Js.Error) : M A := ([], inl e).

(** [await p], for a promise that settles as [r]. *)
Definition await {A} (r : Js.Error + A) : M A := ([], r).

(** [try { body } catch (err) { handler(err) }] *)
Definition tryCatch {A} (body : M A) (handler : Js.Error → M A) : M A :=
  match body with
  | (t, inl e) => let '(t', r) := handler e in (t ++ t', r)
  | (t, inr a) => (t, inr a)
  end.

Definition events {A} (m : M A) : list Event := fst m.
Definition outcome {A} (m : M A) : Js.Error + A := snd m.

(** The events a run of [main] can perform. *)
Definition mainEvent (e : Event) : Prop :=
  match e with
  | ConsoleLog _ | VisitSchemaDirectives _ | MergeSchemas _
  | NewApolloServer _ | Listen => True
  | ConsoleError _ | ProcessExit _ | LoggerInfo _ | LoggerError _ => False
  end.

(** The computation threw. *)
Definition failed {A} (m : M A) : Prop := ∃ e, outcome m = inl e.

End Run.
Export Run.

(** ** [src/index.ts] *)

Module Index.

(** What [mergePackageConfigs] returns. *)
Record PackageConfigs := mkPackageConfigs {
  names : list string;
  typeDefs : list Document;
  resolvers : gmap (string * string) string;
  pkgDataSources : gmap string string
}.

(** One remote package as discovery returns it; [schemaDef] is a reference
    to the parsed document, which the rewriter mutates in place. *)
Record IoSchemaDef := mkIoSchemaDef {
  pkg : string;
  schemaDef : nat
}.

#[global] Instance IoSchemaDef_eq_dec : EqDecision IoSchemaDef.
Proof. solve_decision. Defined.

(** The collaborators of [index.ts] that are not among the sources, given by
    what they answer in one run: the environment read by [./env], the merged
    local packages of [./localPackages], the packages found by [./adobe-io]
    with the heap holding their documents, the introspection of the
    monolith over the link, and the HTTP listener. *)
Record World := mkWorld {
  env : gmap string string;
  localPackages : Js.Error + PackageConfigs;
  getAllRemoteGQLSchemas : string → Js.Error + list IoSchemaDef;
  heap : gmap nat Document;
  introspectSchema : string → Js.Error + GraphQLSchema;
  listen : Js.Error + string
}.

(** Modelled from the spec: [readVar(name)] of [./env], which is not among
    the sources: the configured value, with an unset variable read as the
    empty string (falsy, like [undefined]). *)
Definition readVar (w : World) (name : string) : string :=
  default EmptyString (env w !! name).

(** [if (v)] on a string. *)
Definition truthy (v : string) : bool := negb (String.eqb v EmptyString).

Record LocalExtensions := mkLocalExtensions {
  executableSchema : GraphQLSchema;
  localDataSources : gmap string string
}.

Definition collectLocalExtensions (w : World) : M LocalExtensions :=
  mergedLocalPkgConfigs ← await (localPackages w);
  let count := length (names mergedLocalPkgConfigs) in
  let names := Js.join Js.nl (map (λ n, "  - " +:+ n) (names mergedLocalPkgConfigs)) in
  emit (ConsoleLog ("Found " +:+ pretty count +:+ " local package(s):"
                    +:+ Js.nl +:+ names));;
  executableSchema ← await (makeExecutableSchema
                              (typeDefs mergedLocalPkgConfigs)
                              (resolvers mergedLocalPkgConfigs));
  mret (mkLocalExtensions executableSchema
                          (pkgDataSources mergedLocalPkgConfigs)).

(** The document of the [gql] literal in [collectRemoteExtensions]. *)
Definition baseTypeDefs : Document :=
  [ TypeDefinition ObjectKind "Query" [mkFieldDef "ignoreMe" "String" []];
    DirectiveDefinition "function" [("name", "String!")] ["FIELD_DEFINITION"] ].

(** [ioSchemaDefs.forEach(({ schemaDef, pkg }) => {
       prependPkgNameToFunctionDirectives(schemaDef, pkg); })]
    on the heap of documents. *)
Definition prependAll (ioSchemaDefs : list IoSchemaDef)
    (σ : gmap nat Document) : gmap nat Document :=
  foldl (λ σ io,
           alter (λ doc, FunctionDirective.prependPkgNameToFunctionDirectives
                           doc (pkg io))
                 (schemaDef io) σ)
        σ ioSchemaDefs.

(** [io.schemaDef], read through the reference. *)
Definition deref (σ : gmap nat Document) (io : IoSchemaDef) : Document :=
  default [] (σ !! schemaDef io).

(** The [typeDefs] array given to [makeExecutableSchema] in
    [collectRemoteExtensions]. *)
Definition ioTypeDefs (ioSchemaDefs : list IoSchemaDef)
    (σ : gmap nat Document) : list Document :=
  baseTypeDefs :: map (deref σ) ioSchemaDefs.

Definition collectRemoteExtensions (w : World) : M GraphQLSchema :=
  let ioNamespace := readVar w "ADOBE_IO_NAMESPACE" in
  ioSchemaDefs ← await (getAllRemoteGQLSchemas w ioNamespace);
  let pkgNames := Js.join Js.nl (map (λ s, "  - " +:+ pkg s) ioSchemaDefs) in
  emit (ConsoleLog ("Found " +:+ pretty (length ioSchemaDefs)
                    +:+ " remote I/O GraphQL package(s):" +:+ Js.nl +:+ pkgNames));;
  let σ := prependAll ioSchemaDefs (heap w) in
  ioSchema ← await (makeExecutableSchema (ioTypeDefs ioSchemaDefs σ) ∅);
  let ioSchema := visitSchemaDirectives ioSchema in
  emit (VisitSchemaDirectives ioSchema);;
  mret ioSchema.

Definition getExecutableFallbackSchema (w : World) : M GraphQLSchema :=
  let uri := readVar w "LEGACY_GRAPHQL_URL" in
  rawMonolithSchema ← await (introspectSchema w uri);
  mret (makeRemoteExecutableSchema rawMonolithSchema uri).

Definition main (w : World) : M unit :=
  localExtensions ← collectLocalExtensions w;
  let schemas := [executableSchema localExtensions] in
  schemas ← (if truthy (readVar w "ENABLE_IO_FUNCTIONS")
             then io ← collectRemoteExtensions w; mret (schemas ++ [io])
             else mret schemas);
  schemas ← (if truthy (readVar w "LEGACY_GRAPHQL_URL")
             then fallback ← getExecutableFallbackSchema w;
                  mret (schemas ++ [fallback])
             else mret schemas);
  emit (MergeSchemas schemas);;
  merged ← await (mergeSchemas schemas);
  emit (NewApolloServer
          (mkServerConfig merged (localDataSources localExtensions)
             [("function", FunctionDirectiveVisitor)]));;
  emit Listen;;
  url ← await (listen w);
  emit (ConsoleLog ("GraphQL server is running at: " +:+ url)).

(** What [main] does once the schemas are collected and handed to the
    composer: nothing more if composition fails, else the server is
    constructed on the merged schema and started. *)
Definition serverEvents (w : World) (le : LocalExtensions)
    (schemas : list GraphQLSchema) : list Event :=
  match mergeSchemas schemas with
  | inl _ => []
  | inr merged =>
      NewApolloServer (mkServerConfig merged (localDataSources le)
                         [("function", FunctionDirectiveVisitor)])
      :: Listen
      :: match listen w with
         | inl _ => []
         | inr url => [ConsoleLog ("GraphQL server is running at: " +:+ url)]
         end
  end.

(** An optional fragment of a run: built, successfully, exactly when its
    switch is on. *)
Definition optionalFragment (enabled : bool) (built : M GraphQLSchema)
    (fragment : option GraphQLSchema) : Prop :=
  if enabled then ∃ s, outcome built = inr s ∧ fragment = Some s
  else fragment = None.

(** [main().catch(err => { console.error(err); process.exit(1); })] *)
Definition program (w : World) : list Event :=
  match main w with
  | (t, inl err) => t ++ [ConsoleError err; ProcessExit 1]
  | (t, inr _) => t
  end.

End Index.


(** ** [src/framework/schema/monolith-proxy/index.ts] *)

Module MonolithProxy.

(** What [createMonolithExecutor(url)] returns: the transport bound to the
    endpoint. *)
Record Executor := mkExecutor { endpointURL : string }.

Definition createMonolithExecutor (monolithURL : string) : Executor :=
  mkExecutor monolithURL.

(** The [Opts] argument; the logger is the event trace. *)
Record Opts := mkOpts { config : gmap string string }.

(** Modelled from the spec: [config.get(name).asString()] of [../../config],
    which is not among the sources: the configured value as a string. *)
Definition configGetAsString (o : Opts) (name : string) : string :=
  default EmptyString (config o !! name).

Record ProxySchema := mkProxySchema {
  proxySchema : GraphQLSchema;
  proxyExecutor : Executor
}.

(** [assert(cond, msg)] *)
Definition assert (cond : bool) (msg : string) : M unit :=
  if cond then mret tt else throw (Js.assertionError msg).

(** [t.getFields()], with [t] possibly undefined. *)
Definition getFields (t : option NamedType) : M (gmap string Field) :=
  match t with
  | Some ty => mret (t_fields ty)
  | None =>
      throw (Js.mkError "TypeError"
               "Cannot read property 'getFields' of undefined")
  end.

Definition missingTypeMessage : string :=
  "Could not find required type " +:+ Js.dq +:+ "ProductAttributeFilterInput"
  +:+ Js.dq +:+ " in PHP application schema. Make sure your Magento store is running version 2.3.4 or later.".

Definition missingFieldMessage : string :=
  "Could not find required field " +:+ Js.dq
  +:+ "ProductAttributeFilterInput.sku" +:+ Js.dq
  +:+ " in PHP application schema. Make sure your store has the " +:+ Js.dq
  +:+ "sku" +:+ Js.dq
  +:+ " attribute exposed for filtering: https://devdocs.magento.com/guides/v2.4/graphql/custom-filters.html".

Definition introspectionFailedMessage (monolithURL : string) : string :=
  "Failed introspecting remote Magento schema at " +:+ Js.dq +:+ monolithURL
  +:+ Js.dq +:+ ". "
  +:+ "Make sure that the MONOLITH_GRAPHQL_URL configuration is set to "
  +:+ "the correct value for your Magento instance".

Section WithNetwork.

(** [introspectSchema(executor)] of [graphql-tools]: what the endpoint
    answers in this run. *)
Variable introspectSchema : Executor → Js.Error + GraphQLSchema.

Definition createMonolithProxySchema (o : Opts) : M ProxySchema :=
  let monolithURL := configGetAsString o "MONOLITH_GRAPHQL_URL" in
  let executor := createMonolithExecutor monolithURL in
  schema ←
    tryCatch
      (emit (LoggerInfo ("Fetching monolith schema from " +:+ monolithURL));;
       await (introspectSchema executor))
      (λ err,
         emit (LoggerError
                 ("Failed introspecting monolith schema from " +:+ monolithURL));;
         throw (Js.newError (introspectionFailedMessage monolithURL)));
  let attrFilterInput := getType schema "ProductAttributeFilterInput" in
  assert (isInputObjectType attrFilterInput) missingTypeMessage;;
  attrFilterFields ← getFields attrFilterInput;
  assert (hasOwnProperty attrFilterFields "sku") missingFieldMessage;;
  mret (mkProxySchema schema executor).

End WithNetwork.

End MonolithProxy.

(** ** [prepareForServer] *)

Module Server.

Section WithFramework.

(** The process state the schema build reads and writes, and the context
    function of [./contextBuilder]; both modules are outside the sources and
    are parameters here. *)
Context {State ContextFn : Type}.
Variable buildFrameworkSchema : State → (Js.Error + GraphQLSchema) * State.
Variable contextBuilder : GraphQLSchema → ContextFn.

Record Prepared := mkPrepared {
  schema : GraphQLSchema;
  context : ContextFn
}.

(** A process: the number of schema builds started so far, and the state. *)
Definition Proc (A : Type) : Type :=
  nat * State → (Js.Error + A) * (nat * State).

(** [await buildFrameworkSchema()] *)
Definition callBuildFrameworkSchema : Proc GraphQLSchema :=
  λ '(n, σ), let '(r, σ') := buildFrameworkSchema σ in (r, (S n, σ')).

Definition prepareForServer : Proc Prepared :=
  λ p,
    match callBuildFrameworkSchema p with
    | (inl e, p') => (inl e, p')
    | (inr gateway, p') =>
        match callBuildFrameworkSchema p' with
        | (inl e, p'') => (inl e, p'')
        | (inr built, p'') =>
            (inr (mkPrepared built (contextBuilder gateway)), p'')
        end
    end.

End WithFramework.

End Server.

(** ** Concrete inputs used by the examples below *)

Module Demo.

Import MonolithProxy Index.

Definition monolithURL : string := "http://magento.test/graphql".

Definition proxyOpts : Opts :=
  mkOpts {[ "MONOLITH_GRAPHQL_URL" := monolithURL ]}.

(** A monolith whose filter-input type has no [sku] field. *)
Definition schemaWithoutSku : GraphQLSchema :=
  mkSchema
    {[ "ProductAttributeFilterInput" :=
         mkNamedType InputObjectKind
           {[ "name" := mkField "FilterMatchTypeInput" [] DefaultResolver ]} ]}
    ∅.

(** A compatible monolith. *)
Definition schemaWithSku : GraphQLSchema :=
  mkSchema
    {[ "ProductAttributeFilterInput" :=
         mkNamedType InputObjectKind
           {[ "sku" := mkField "FilterEqualTypeInput" [] DefaultResolver ]};
       "Query" :=
         mkNamedType ObjectKind
           {[ "products" := mkField "Products" [] DefaultResolver ]} ]}
    ∅.

Definition refused : Js.Error :=
  Js.mkError "FetchError" "connect ECONNREFUSED 127.0.0.1:80".

Definition timedOut : Js.Error :=
  Js.mkError "FetchError" "network timeout".

(** A schema build that reads and writes process state: the first build
    finds nothing registered yet, every later one finds the monolith's
    types. *)
Definition statefulBuild (registered : bool)
  : (Js.Error + GraphQLSchema) * bool :=
  (inr (if registered then schemaWithSku else emptySchema), true).

(** A schema build whose result does not depend on the state. *)
Definition pureBuild (registered : bool)
  : (Js.Error + GraphQLSchema) * bool :=
  (inr schemaWithSku, registered).

(** A schema build that counts its runs in the process state and reads the
    count: the first two runs find the monolith's types, later ones find
    nothing. *)
Definition countingBuild (runs : nat) : (Js.Error + GraphQLSchema) * nat :=
  (inr (if Nat.ltb runs 2 then schemaWithSku else emptySchema), S runs).

Definition localConfigs : PackageConfigs :=
  mkPackageConfigs ["hello"]
    [[TypeDefinition ObjectKind "Query"
        [mkFieldDef "hello" "String" []; mkFieldDef "price" "Float" []]]]
    {[ ("Query", "hello") := "helloResolver";
       ("Query", "price") := "localPrice" ]}
    {[ "catalogAPI" := "CatalogDataSource" ]}.

(** The document of a remote package [catalog]. *)
Definition catalogDocument : Document :=
  [TypeExtension "Query"
     [mkFieldDef "price" "Float"
        [mkDirective "function" [("name", "getPrice")]]]].

(** The document of a remote package [pkgB]. *)
Definition pkgBDocument : Document :=
  [TypeExtension "Query"
     [mkFieldDef "greet" "String"
        [mkDirective "function" [("name", "greet")]]]].

Definition discovered : list IoSchemaDef :=
  [mkIoSchemaDef "catalog" 0; mkIoSchemaDef "pkgB" 1].

Definition documents : gmap nat Document :=
  {[ 0 := catalogDocument; 1 := pkgBDocument ]}.

(** Every fragment enabled. *)
Definition world : World :=
  mkWorld
    {[ "ENABLE_IO_FUNCTIONS" := "true";
       "ADOBE_IO_NAMESPACE" := "storefront";
       "LEGACY_GRAPHQL_URL" := monolithURL ]}
    (inr localConfigs)
    (λ _, inr discovered)
    documents
    (λ _, inr schemaWithSku)
    (inr "http://localhost:4000/").

(** Remote functions only, and no package published. *)
Definition remoteOnly : World :=
  mkWorld {[ "ENABLE_IO_FUNCTIONS" := "true" ]}
    (inr localConfigs) (λ _, inr []) ∅
    (λ _, inl refused) (inr "http://localhost:4000/").

(** Only the local packages. *)
Definition localOnly : World :=
  mkWorld ∅ (inr localConfigs) (λ _, inr discovered) documents
    (λ _, inl refused) (inr "http://localhost:4000/").

(** Remote functions enabled, and the catalog of packages unreachable. *)
Definition brokenRemote : World :=
  mkWorld {[ "ENABLE_IO_FUNCTIONS" := "true" ]}
    (inr localConfigs) (λ _, inl timedOut) ∅
    (λ _, inl refused) (inr "http://localhost:4000/").

(** The legacy URL set, and the monolith unreachable. *)
Definition unreachableMonolith : World :=
  mkWorld {[ "LEGACY_GRAPHQL_URL" := monolithURL ]}
    (inr localConfigs) (λ _, inr []) ∅
    (λ _, inl refused) (inr "http://localhost:4000/").

(** A monolith that declares [Query] as a scalar. *)
Definition conflictingMonolith : World :=
  mkWorld {[ "LEGACY_GRAPHQL_URL" := monolithURL ]}
    (inr localConfigs) (λ _, inr []) ∅
    (λ _, inr (mkSchema {[ "Query" := mkNamedType ScalarKind ∅ ]} ∅))
    (inr "http://localhost:4000/").

Definition addressInUse : Js.Error :=
  Js.mkError "Error" "listen EADDRINUSE: address already in use :::4000".

(** Only the local packages, and the port taken. *)
Definition portTaken : World :=
  mkWorld ∅ (inr localConfigs) (λ _, inr []) ∅
    (λ _, inl refused) (inl addressInUse).

(** A schema build that fails the second time it runs. *)
Definition buildOnce (built : bool) : (Js.Error + GraphQLSchema) * bool :=
  (if built then inl (Js.newError "schema was already built")
   else inr schemaWithSku, true).

Definition fragmentOf (m : M GraphQLSchema) : GraphQLSchema :=
  match outcome m with inr s => s | inl _ => emptySchema end.

Definition localExtensions (w : World) : LocalExtensions :=
  match outcome (collectLocalExtensions w) with
  | inr le => le
  | inl _ => mkLocalExtensions emptySchema ∅
  end.

Definition schemas : list GraphQLSchema :=
  [ executableSchema (localExtensions world);
    fragmentOf (collectRemoteExtensions world);
    fragmentOf (getExecutableFallbackSchema world) ].

Definition serverConfig : ServerConfig :=
  mkServerConfig
    (match mergeSchemas schemas with inr s => s | inl _ => emptySchema end)
    (localDataSources (localExtensions world))
    [("function", FunctionDirectiveVisitor)].

End Demo.

(** * Properties *)

(** ** Strings *)

Lemma prefix_append (s t : string) : String.prefix s (s +:+ t) = true.
Proof.
  induction s as [|a s IH]; simpl.
  - by destruct t.
  - destruct (ascii_dec a a); [exact IH | congruence].
Qed.

Lemma includes_head (s t : string) : Js.includes s (s +:+ t) = true.
Proof.
  destruct s as [|a s]; [by destruct t|].
  assert (String.prefix (String a s) (String a s +:+ t) = true) as H
    by apply prefix_append.
  simpl in *. by rewrite H.
Qed.

Lemma includes_skip (s p t : string) :
  Js.includes s t = true → Js.includes s (p +:+ t) = true.
Proof.
  intros H. induction p as [|a p IH]; simpl; [exact H|].
  rewrite IH. apply orb_true_r.
Qed.

Lemma url_in_message (url : string) :
  Js.includes url (MonolithProxy.introspectionFailedMessage url) = true.
Proof.
  unfold MonolithProxy.introspectionFailedMessage.
  do 2 apply includes_skip. apply includes_head.
Qed.

(** ** Runs *)

Lemma events_bind {A B} (m : M A) (f : A → M B) :
  events (m ≫= f)
  = events m ++ match outcome m with inr a => events (f a) | inl _ => [] end.
Proof.
  destruct m as [t [e|a]]; unfold mbind, M_bind, events, outcome; simpl.
  - by rewrite app_nil_r.
  - by destruct (f a).
Qed.

Lemma outcome_bind {A B} (m : M A) (f : A → M B) :
  outcome (m ≫= f)
  = match outcome m with inr a => outcome (f a) | inl e => inl e end.
Proof.
  destruct m as [t [e|a]]; unfold mbind, M_bind, events, outcome; simpl.
  - done.
  - by destruct (f a).
Qed.

Lemma merges_app (a b : list Event) : merges (a ++ b) = merges a ++ merges b.
Proof. apply omap_app. Qed.

Lemma servers_app (a b : list Event) : servers (a ++ b) = servers a ++ servers b.
Proof. apply omap_app. Qed.

Lemma visits_app (a b : list Event) : visits (a ++ b) = visits a ++ visits b.
Proof. apply omap_app. Qed.

Lemma merges_elem (l : list GraphQLSchema) (t : list Event) :
  MergeSchemas l ∈ t ↔ l ∈ merges t.
Proof.
  unfold merges. rewrite list_elem_of_omap. split.
  - intros H. by exists (MergeSchemas l).
  - intros (e & He & Heq). by destruct e; simplify_eq.
Qed.

Lemma servers_elem (c : ServerConfig) (t : list Event) :
  NewApolloServer c ∈ t ↔ c ∈ servers t.
Proof.
  unfold servers. rewrite list_elem_of_omap. split.
  - intros H. by exists (NewApolloServer c).
  - intros (e & He & Heq). by destruct e; simplify_eq.
Qed.

(** ** The monolith proxy builder *)

Section MonolithProxyProperties.

Import MonolithProxy.

Variable introspectSchema : Executor → Js.Error + GraphQLSchema.
Variable o : Opts.
Variable monolithURL : string.
Hypothesis configured : configGetAsString o "MONOLITH_GRAPHQL_URL" = monolithURL.

(** C4, as the code has it: when introspection of the monolith endpoint
    fails, whatever the cause, the builder logs the failure and throws a
    fresh [Error] whose message contains the endpoint URL; the thrown error
    is the same for every cause, and no fragment is returned. *)
Theorem introspection_failure_surfaces_url (cause : Js.Error) :
  introspectSchema (createMonolithExecutor monolithURL) = inl cause →
  createMonolithProxySchema introspectSchema o =
    ([LoggerInfo ("Fetching monolith schema from " +:+ monolithURL);
      LoggerError ("Failed introspecting monolith schema from " +:+ monolithURL)],
     inl (Js.newError (introspectionFailedMessage monolithURL)))
  ∧ Js.includes monolithURL (introspectionFailedMessage monolithURL) = true.
Proof.
  intros Hfail. split; [|apply url_in_message].
  unfold createMonolithProxySchema, tryCatch, await.
  rewrite configured. simpl. by rewrite Hfail.
Qed.

(** C2, as the code has it: once introspection has answered, the builder
    returns a fragment only if the schema has the input object type
    [ProductAttributeFilterInput] and that type has the field [sku], and
    then the fragment is the introspected schema with its executor.  If the
    type is absent (or is not an input object type) an assertion error is
    thrown whose message names the type and the minimum version 2.3.4; if
    the type lacks [sku] an assertion error is thrown whose message names
    the field [ProductAttributeFilterInput.sku] and no version. *)
Theorem proxy_schema_is_validated (schema : GraphQLSchema) :
  introspectSchema (createMonolithExecutor monolithURL) = inr schema →
  let attrFilterInput := getType schema "ProductAttributeFilterInput" in
  (isInputObjectType attrFilterInput = false →
     outcome (createMonolithProxySchema introspectSchema o) = inl (Js.assertionError missingTypeMessage))
  ∧ (∀ ty, attrFilterInput = Some ty →
       t_kind ty = InputObjectKind →
       t_fields ty !! "sku" = None →
       outcome (createMonolithProxySchema introspectSchema o) = inl (Js.assertionError missingFieldMessage))
  ∧ (∀ p, outcome (createMonolithProxySchema introspectSchema o) = inr p →
       p = mkProxySchema schema (createMonolithExecutor monolithURL)
       ∧ ∃ ty, attrFilterInput = Some ty
               ∧ t_kind ty = InputObjectKind
               ∧ is_Some (t_fields ty !! "sku"))
  ∧ Js.includes "ProductAttributeFilterInput" missingTypeMessage = true
  ∧ Js.includes "2.3.4" missingTypeMessage = true
  ∧ Js.includes "ProductAttributeFilterInput.sku" missingFieldMessage = true
  ∧ Js.includes "version" missingFieldMessage = false.
Proof.
  intros Hok attr.
  assert (createMonolithProxySchema introspectSchema o =
    let '(t, r) :=
      (assert (isInputObjectType attr) missingTypeMessage;;
       attrFilterFields ← getFields attr;
       assert (hasOwnProperty attrFilterFields "sku") missingFieldMessage;;
       mret (mkProxySchema schema (createMonolithExecutor monolithURL)))
    in (LoggerInfo ("Fetching monolith schema from " +:+ monolithURL) :: t, r))
    as Hrun.
  { unfold createMonolithProxySchema, tryCatch, await.
    rewrite configured. simpl. rewrite Hok. reflexivity. }
  rewrite Hrun. clear Hrun.
  repeat split; try (vm_compute; reflexivity).
  - intros Hkind. by rewrite Hkind.
  - intros ty Hty Hkind Hsku. rewrite Hty. simpl.
    rewrite bool_decide_eq_true_2 by done. simpl.
    unfold hasOwnProperty. rewrite Hsku.
    rewrite bool_decide_eq_false_2; [done|]. by apply is_Some_None.
  - revert H. destruct attr as [ty|]; simpl; [|done].
    case_bool_decide; simpl; [|done].
    unfold hasOwnProperty. case_bool_decide; simpl; [|done].
    by intros [= <-].
  - revert H. destruct attr as [ty|] eqn:Hattr; simpl; [|done].
    case_bool_decide; simpl; [|done].
    unfold hasOwnProperty. case_bool_decide; simpl; [|done].
    intros _. by exists ty.
Qed.

End MonolithProxyProperties.

(** At the concrete endpoint, with the connection refused. *)
Lemma introspection_failure_surfaces_url_witness :
  MonolithProxy.createMonolithProxySchema (λ _, inl Demo.refused) Demo.proxyOpts =
    ([LoggerInfo ("Fetching monolith schema from " +:+ Demo.monolithURL);
      LoggerError ("Failed introspecting monolith schema from "
                   +:+ Demo.monolithURL)],
     inl (Js.newError (MonolithProxy.introspectionFailedMessage Demo.monolithURL)))
  ∧ Js.includes Demo.monolithURL
      (MonolithProxy.introspectionFailedMessage Demo.monolithURL) = true.
Proof.
  exact (introspection_failure_surfaces_url (λ _, inl Demo.refused)
           Demo.proxyOpts Demo.monolithURL eq_refl Demo.refused eq_refl).
Defined.

(** C4 as stated fails: the error thrown when the connection is refused
    does not carry the cause.  It is not the cause, its message does not
    contain the cause's message, and a different cause yields the very same
    run. *)
Lemma introspection_error_drops_cause :
  ∃ e,
    outcome (MonolithProxy.createMonolithProxySchema
               (λ _, inl Demo.refused) Demo.proxyOpts) = inl e
    ∧ e ≠ Demo.refused
    ∧ Js.includes (Js.err_message Demo.refused) (Js.err_message e) = false
    ∧ Demo.timedOut ≠ Demo.refused
    ∧ MonolithProxy.createMonolithProxySchema
        (λ _, inl Demo.timedOut) Demo.proxyOpts
      = MonolithProxy.createMonolithProxySchema
          (λ _, inl Demo.refused) Demo.proxyOpts.
Proof.
  eexists. split; [vm_compute; reflexivity|].
  repeat split; try discriminate; vm_compute; reflexivity.
Qed.

(** A compatible monolith passes both checks. *)
Lemma proxy_schema_is_validated_witness :
  outcome (MonolithProxy.createMonolithProxySchema
             (λ _, inr Demo.schemaWithSku) Demo.proxyOpts)
  = inr (MonolithProxy.mkProxySchema Demo.schemaWithSku
           (MonolithProxy.createMonolithExecutor Demo.monolithURL))
  ∧ ∃ ty, getType Demo.schemaWithSku "ProductAttributeFilterInput" = Some ty
          ∧ t_kind ty = InputObjectKind
          ∧ is_Some (t_fields ty !! "sku").
Proof.
  pose proof (proxy_schema_is_validated (λ _, inr Demo.schemaWithSku)
                Demo.proxyOpts Demo.monolithURL eq_refl
                Demo.schemaWithSku eq_refl) as (_ & _ & H & _).
  assert (outcome (MonolithProxy.createMonolithProxySchema
                     (λ _, inr Demo.schemaWithSku) Demo.proxyOpts)
          = inr (MonolithProxy.mkProxySchema Demo.schemaWithSku
                   (MonolithProxy.createMonolithExecutor Demo.monolithURL)))
    as Hrun by (vm_compute; reflexivity).
  split; [exact Hrun|]. exact (proj2 (H _ Hrun)).
Defined.

(** C2 as stated fails: for a monolith whose filter-input type lacks [sku]
    the builder throws node's assertion error, and its message names no
    version of the legacy system. *)
Lemma missing_sku_error_names_no_version :
  ∃ e,
    outcome (MonolithProxy.createMonolithProxySchema
               (λ _, inr Demo.schemaWithoutSku) Demo.proxyOpts) = inl e
    ∧ Js.err_name e = "AssertionError"
    ∧ Js.includes "sku" (Js.err_message e) = true
    ∧ Js.includes "2.3.4" (Js.err_message e) = false
    ∧ Js.includes "version" (Js.err_message e) = false.
Proof.
  eexists. split; [vm_compute; reflexivity|].
  repeat split; vm_compute; reflexivity.
Qed.

(** The older builder of [index.ts] checks nothing: a monolith without the
    filter-input type is wrapped and returned like any other. *)
Example fallback_schema_is_not_validated :
  getType emptySchema "ProductAttributeFilterInput" = None
  ∧ Index.getExecutableFallbackSchema
      (Index.mkWorld {[ "LEGACY_GRAPHQL_URL" := Demo.monolithURL ]}
         (inr Demo.localConfigs) (λ _, inr []) ∅
         (λ _, inr emptySchema) (inr "http://localhost:4000/"))
    = ([], inr (makeRemoteExecutableSchema emptySchema Demo.monolithURL)).
Proof. split; vm_compute; reflexivity. Qed.

(** ** [prepareForServer] *)

(** C9, as the code has it: when the first schema build succeeds,
    [prepareForServer] starts the build exactly twice; the schema it returns
    is the result of the second build, run in the state the first one left,
    and the context function is built from the result of the first.  If the
    result of a build does not depend on the state, the schema returned and
    the one given to the context builder coincide; otherwise they can
    differ, and do for the build [Demo.statefulBuild], which reads state it
    writes. *)
Theorem prepareForServer_builds_twice :
  (∀ (State ContextFn : Type)
     (buildFrameworkSchema : State → (Js.Error + GraphQLSchema) * State)
     (contextBuilder : GraphQLSchema → ContextFn)
     (n : nat) (σ : State) (gateway : GraphQLSchema),
     (buildFrameworkSchema σ).1 = inr gateway →
     let second := buildFrameworkSchema (buildFrameworkSchema σ).2 in
     let result :=
       Server.prepareForServer buildFrameworkSchema contextBuilder (n, σ) in
     result.2 = (S (S n), second.2)
     ∧ match second.1 with
       | inl e => result.1 = inl e
       | inr built =>
           result.1 = inr (Server.mkPrepared built (contextBuilder gateway))
       end
     ∧ ((∀ σ1 σ2, (buildFrameworkSchema σ1).1 = (buildFrameworkSchema σ2).1) →
        ∀ p, result.1 = inr p →
             Server.context p = contextBuilder (Server.schema p)))
  ∧ ∃ p, (Server.prepareForServer Demo.statefulBuild id (0, false)).1 = inr p
         ∧ Server.context p ≠ Server.schema p.
Proof.
  split.
  - intros State ContextFn build contextBuilder n σ gateway Hfirst second result.
    assert (Hpure := λ H : ∀ σ1 σ2, (build σ1).1 = (build σ2).1,
                       H σ (build σ).2).
    subst result second. unfold Server.prepareForServer,
      Server.callBuildFrameworkSchema.
    destruct (build σ) as [r σ']. simpl in *. subst r.
    destruct (build σ') as [[e|built] σ'']; simpl; repeat split.
    + intros _ p [=].
    + intros H p [= <-]. specialize (Hpure H). simpl in *. congruence.
  - eexists. split; [reflexivity|]. simpl.
    intros H. apply (f_equal (λ s, getType s "Query")) in H.
    vm_compute in H. discriminate.
Qed.

(** With a build whose result does not depend on the state. *)
Lemma prepareForServer_builds_twice_witness :
  ∃ p, (Server.prepareForServer Demo.pureBuild id (0, false)).1 = inr p
       ∧ Server.context p = Server.schema p.
Proof.
  pose proof (proj1 prepareForServer_builds_twice bool GraphQLSchema
                Demo.pureBuild id 0 false Demo.schemaWithSku eq_refl)
    as (_ & _ & H).
  eexists. split; [reflexivity|].
  apply H; reflexivity.
Defined.

(** C9 as stated fails: the two artifacts can coincide although the build
    is neither free of side effects nor independent of the state.  The
    build [Demo.countingBuild] writes the state on every run and its result
    depends on the state, yet started from a fresh state both builds of
    [prepareForServer] return the same schema. *)
Lemma stateful_build_with_coinciding_artifacts :
  ∃ p,
    (Server.prepareForServer Demo.countingBuild id (0, 0)).1 = inr p
    ∧ Server.context p = Server.schema p
    ∧ (Demo.countingBuild 0).2 ≠ 0
    ∧ (Demo.countingBuild 0).1 ≠ (Demo.countingBuild 2).1.
Proof.
  eexists. split; [reflexivity|]. split; [reflexivity|].
  split; [discriminate|].
  intros H. apply (f_equal (λ r, match r with
                                 | inr s => getType s "Query"
                                 | inl _ => None
                                 end)) in H.
  vm_compute in H. discriminate.
Qed.

(** ** Composition *)

Import Index.

Lemma getField_layer (acc later s : GraphQLSchema) (t f : string) :
  layer acc later = inr s →
  getField s t f = getField later t f ∪ getField acc t f.
Proof.
  unfold layer. destruct (conflicts _ _); [|done]. intros [= <-].
  unfold getField, getType. simpl. rewrite lookup_union_with.
  destruct (s_types later !! t) as [tl|], (s_types acc !! t) as [ta|]; simpl;
    try done.
  - by rewrite lookup_union.
  - by destruct (t_fields tl !! f).
  - by destruct (t_fields ta !! f).
Qed.

Lemma getField_layerAll (schemas : list GraphQLSchema) :
  ∀ (acc s : GraphQLSchema) (t f : string),
    layerAll acc schemas = inr s →
    getField s t f
    = foldl (λ found x, getField x t f ∪ found) (getField acc t f) schemas.
Proof.
  induction schemas as [|x rest IH]; intros acc s t f; simpl.
  - by intros [= <-].
  - destruct (layer acc x) as [e|acc'] eqn:Hl; [done|].
    intros H. rewrite (IH _ _ _ _ H). by rewrite (getField_layer _ _ _ _ _ Hl).
Qed.

(** The composed field is the one of the last fragment that has it. *)
Lemma getField_mergeSchemas (base : GraphQLSchema)
    (remote mono : option GraphQLSchema) (s : GraphQLSchema) (t f : string) :
  mergeSchemas (base :: option_list remote ++ option_list mono) = inr s →
  getField s t f
  = (mono ≫= λ m, getField m t f) ∪ (remote ≫= λ r, getField r t f)
    ∪ getField base t f.
Proof.
  intros H. rewrite (getField_layerAll _ _ _ _ _ H).
  destruct remote as [r|], mono as [m|]; simpl;
    repeat match goal with |- context [getField ?x t f] =>
             destruct (getField x t f) end; done.
Qed.

(** ** Runs of [main] *)

Lemma collectLocalExtensions_events (w : World) :
  merges (events (collectLocalExtensions w)) = []
  ∧ servers (events (collectLocalExtensions w)) = []
  ∧ visits (events (collectLocalExtensions w)) = [].
Proof.
  unfold collectLocalExtensions, await.
  destruct (localPackages w) as [e|cfg]; simpl; [done|].
  by destruct (makeExecutableSchema _ _).
Qed.

Lemma collectRemoteExtensions_events (w : World) :
  merges (events (collectRemoteExtensions w)) = []
  ∧ servers (events (collectRemoteExtensions w)) = []
  ∧ visits (events (collectRemoteExtensions w))
    = match outcome (collectRemoteExtensions w) with
      | inr io => [io]
      | inl _ => []
      end.
Proof.
  unfold collectRemoteExtensions, await.
  destruct (getAllRemoteGQLSchemas w _) as [e|ds]; simpl; [done|].
  by destruct (makeExecutableSchema _ _).
Qed.

Lemma getExecutableFallbackSchema_events (w : World) :
  events (getExecutableFallbackSchema w) = [].
Proof.
  unfold getExecutableFallbackSchema, await.
  by destruct (introspectSchema w _).
Qed.

Lemma serverEvents_projections (w : World) (le : LocalExtensions)
    (schemas : list GraphQLSchema) :
  merges (serverEvents w le schemas) = []
  ∧ visits (serverEvents w le schemas) = []
  ∧ servers (serverEvents w le schemas)
    = match mergeSchemas schemas with
      | inl _ => []
      | inr merged =>
          [mkServerConfig merged (localDataSources le)
             [("function", FunctionDirectiveVisitor)]]
      end.
Proof.
  unfold serverEvents.
  destruct (mergeSchemas schemas); [done|]. by destruct (listen w).
Qed.

Lemma main_tail (w : World) (le : LocalExtensions)
    (schemas : list GraphQLSchema) :
  events
    (emit (MergeSchemas schemas);;
     merged ← await (mergeSchemas schemas);
     emit (NewApolloServer
             (mkServerConfig merged (localDataSources le)
                [("function", FunctionDirectiveVisitor)]));;
     emit Listen;;
     url ← await (listen w);
     emit (ConsoleLog ("GraphQL server is running at: " +:+ url)))
  = MergeSchemas schemas :: serverEvents w le schemas.
Proof.
  unfold serverEvents.
  destruct (mergeSchemas schemas), (listen w); reflexivity.
Qed.

Lemma optional_push (enabled : bool) (build : M GraphQLSchema)
    (schemas : list GraphQLSchema) :
  events (if enabled then x ← build; mret (schemas ++ [x]) else mret schemas)
  = (if enabled then events build else [])
  ∧ outcome (if enabled then x ← build; mret (schemas ++ [x]) else mret schemas)
    = if enabled
      then match outcome build with
           | inl e => inl e
           | inr x => inr (schemas ++ [x])
           end
      else inr schemas.
Proof.
  destruct enabled; [|done].
  destruct build as [t [e|x]]; cbn; by rewrite ?app_nil_r.
Qed.

(** The last stage of collection: the monolith fragment, then the rest of
    [main], whatever it is. *)
Lemma fallback_stage (w : World) (le : LocalExtensions)
    (a : list GraphQLSchema) (k : list GraphQLSchema → M unit) :
  (∀ schemas, events (k schemas)
              = MergeSchemas schemas :: serverEvents w le schemas) →
  (failed (getExecutableFallbackSchema w)
   ∧ truthy (readVar w "LEGACY_GRAPHQL_URL") = true
   ∧ events ((if truthy (readVar w "LEGACY_GRAPHQL_URL")
              then fallback ← getExecutableFallbackSchema w;
                   mret (a ++ [fallback])
              else mret a) ≫= k) = [])
  ∨ ∃ mono,
      optionalFragment (truthy (readVar w "LEGACY_GRAPHQL_URL"))
        (getExecutableFallbackSchema w) mono
      ∧ events ((if truthy (readVar w "LEGACY_GRAPHQL_URL")
                 then fallback ← getExecutableFallbackSchema w;
                      mret (a ++ [fallback])
                 else mret a) ≫= k)
        = MergeSchemas (a ++ option_list mono)
          :: serverEvents w le (a ++ option_list mono).
Proof.
  intros Hk. rewrite events_bind.
  destruct (optional_push (truthy (readVar w "LEGACY_GRAPHQL_URL"))
              (getExecutableFallbackSchema w) a) as [-> ->].
  unfold optionalFragment, failed.
  destruct (truthy (readVar w "LEGACY_GRAPHQL_URL")).
  - rewrite getExecutableFallbackSchema_events.
    destruct (outcome (getExecutableFallbackSchema w)) as [e|fb].
    + left. eauto.
    + right. exists (Some fb). split; [by exists fb|]. by rewrite Hk.
  - right. exists None. split; [done|]. by rewrite Hk, app_nil_r.
Qed.

(** Every run of [main] either stops before anything is handed to the
    composer, because a fragment could not be built, or hands over the
    local fragment followed by the optional ones. *)
Lemma main_cases (w : World) :
  (merges (events (main w)) = [] ∧ servers (events (main w)) = []
   ∧ (failed (collectLocalExtensions w)
      ∨ (truthy (readVar w "ENABLE_IO_FUNCTIONS") = true
         ∧ failed (collectRemoteExtensions w))
      ∨ (truthy (readVar w "LEGACY_GRAPHQL_URL") = true
         ∧ failed (getExecutableFallbackSchema w))))
  ∨ ∃ le remote mono pre,
      outcome (collectLocalExtensions w) = inr le
      ∧ optionalFragment (truthy (readVar w "ENABLE_IO_FUNCTIONS"))
          (collectRemoteExtensions w) remote
      ∧ optionalFragment (truthy (readVar w "LEGACY_GRAPHQL_URL"))
          (getExecutableFallbackSchema w) mono
      ∧ merges pre = [] ∧ servers pre = [] ∧ visits pre = option_list remote
      ∧ events (main w)
        = pre ++ MergeSchemas (executableSchema le
                               :: option_list remote ++ option_list mono)
              :: serverEvents w le (executableSchema le
                                    :: option_list remote ++ option_list mono).
Proof.
  unfold main, optionalFragment at 1, failed at 1 2.
  pose proof (collectLocalExtensions_events w) as (Hl1 & Hl2 & Hl3).
  pose proof (collectRemoteExtensions_events w) as (Hr1 & Hr2 & Hr3).
  rewrite events_bind.
  destruct (collectLocalExtensions w) as [t1 [e|le]];
    cbn [events outcome fst snd] in *.
  { left. rewrite app_nil_r. eauto 6. }
  rewrite events_bind.
  destruct (optional_push (truthy (readVar w "ENABLE_IO_FUNCTIONS"))
              (collectRemoteExtensions w) [executableSchema le]) as [-> ->].
  pose proof (λ remote, fallback_stage w le
                ([executableSchema le] ++ option_list remote) _
                (main_tail w le)) as Hrest.
  destruct (truthy (readVar w "ENABLE_IO_FUNCTIONS")).
  - destruct (collectRemoteExtensions w) as [t2 [e|x]];
      cbn [events outcome fst snd] in *.
    + left. rewrite !merges_app, !servers_app, Hl1, Hl2, Hr1, Hr2. eauto 8.
    + destruct (Hrest (Some x)) as [(Hfail & Hon & Hev)|(mono & Hmono & Hev)].
      * left. rewrite !merges_app, !servers_app, Hl1, Hl2, Hr1, Hr2.
        split; [exact (f_equal merges Hev)|].
        split; [exact (f_equal servers Hev)|]. eauto 8.
      * right. exists le, (Some x), mono, (t1 ++ t2).
        split; [done|]. split; [by exists x|]. split; [done|].
        rewrite !merges_app, !servers_app, !visits_app, Hl1, Hl2, Hl3,
          Hr1, Hr2, Hr3.
        repeat split; try done.
        rewrite <- app_assoc. do 2 f_equal. exact Hev.
  - destruct (Hrest None) as [(Hfail & Hon & Hev)|(mono & Hmono & Hev)].
    + left. cbn [events fst app].
      rewrite !merges_app, !servers_app, Hl1, Hl2.
      split; [exact (f_equal merges Hev)|].
      split; [exact (f_equal servers Hev)|]. eauto 8.
    + right. exists le, None, mono, t1.
      repeat split; try done.
      cbn [events fst app]. f_equal. exact Hev.
Qed.

(** ** The directive rewrite over the packages *)

Lemma prependAll_cons (io : IoSchemaDef) (rest : list IoSchemaDef)
    (σ : gmap nat Document) :
  prependAll (io :: rest) σ
  = prependAll rest
      (alter (λ doc, FunctionDirective.prependPkgNameToFunctionDirectives
                       doc (pkg io))
             (schemaDef io) σ).
Proof. reflexivity. Qed.

Lemma prependAll_lookup_other (ds : list IoSchemaDef) :
  ∀ (σ : gmap nat Document) (l : nat),
    l ∉ schemaDef <$> ds → prependAll ds σ !! l = σ !! l.
Proof.
  induction ds as [|io rest IH]; intros σ l Hl; [done|].
  rewrite fmap_cons, not_elem_of_cons in Hl. destruct Hl as [Hne Hl].
  rewrite prependAll_cons.
  rewrite IH by done. by rewrite lookup_alter_ne.
Qed.

Lemma prependAll_lookup (ds : list IoSchemaDef) :
  ∀ (σ : gmap nat Document) (P : IoSchemaDef),
    NoDup (schemaDef <$> ds) → P ∈ ds →
    prependAll ds σ !! schemaDef P
    = (λ doc, FunctionDirective.prependPkgNameToFunctionDirectives doc (pkg P))
        <$> σ !! schemaDef P.
Proof.
  induction ds as [|io rest IH]; intros σ P Hnd HP.
  { by apply elem_of_nil in HP. }
  rewrite fmap_cons, NoDup_cons in Hnd. destruct Hnd as [Hfresh Hnd].
  rewrite prependAll_cons.
  apply elem_of_cons in HP as [->|HP].
  - rewrite prependAll_lookup_other by done. by rewrite lookup_alter_eq.
  - rewrite IH by done. rewrite lookup_alter_ne; [done|].
    intros Heq. apply Hfresh. rewrite Heq. by apply list_elem_of_fmap_2.
Qed.

(** ** Building the remote-function fragment *)







Lemma collectRemoteExtensions_outcome (w : World) :
  outcome (collectRemoteExtensions w)
  = match getAllRemoteGQLSchemas w (readVar w "ADOBE_IO_NAMESPACE") with
    | inl e => inl e
    | inr ds =>
        match makeExecutableSchema (ioTypeDefs ds (prependAll ds (heap w))) ∅ with
        | inl e => inl e
        | inr s => inr (visitSchemaDirectives s)
        end
    end.
Proof.
  unfold collectRemoteExtensions, await.
  destruct (getAllRemoteGQLSchemas w _) as [e|ds]; [done|].
  cbn -[makeExecutableSchema].
  by destruct (makeExecutableSchema _ _).
Qed.

(** What a run that constructs the server went through. *)
Lemma main_server_inv (w : World) (cfg : ServerConfig) :
  NewApolloServer cfg ∈ events (main w) →
  ∃ le remote mono pre post,
    outcome (collectLocalExtensions w) = inr le
    ∧ optionalFragment (truthy (readVar w "ENABLE_IO_FUNCTIONS"))
        (collectRemoteExtensions w) remote
    ∧ optionalFragment (truthy (readVar w "LEGACY_GRAPHQL_URL"))
        (getExecutableFallbackSchema w) mono
    ∧ mergeSchemas (executableSchema le
                    :: option_list remote ++ option_list mono)
      = inr (schema cfg)
    ∧ cfg = mkServerConfig (schema cfg) (localDataSources le)
              [("function", FunctionDirectiveVisitor)]
    ∧ events (main w)
      = pre ++ MergeSchemas (executableSchema le
                             :: option_list remote ++ option_list mono)
            :: NewApolloServer cfg :: post
    ∧ merges pre = [] ∧ servers pre = [] ∧ visits pre = option_list remote
    ∧ merges post = [] ∧ servers post = [] ∧ visits post = [].
Proof.
  rewrite servers_elem.
  destruct (main_cases w) as [(_ & Hs & _)|(le & remote & mono & pre & Hl & Hr
                                             & Hf & Hm & Hs & Hv & Hev)].
  { rewrite Hs. by intros ?%elem_of_nil. }
  rewrite Hev, servers_app, Hs.
  change (servers (MergeSchemas ?l :: ?t)) with (servers t).
  unfold serverEvents.
  destruct (mergeSchemas _) as [e|merged] eqn:Hmerged;
    [by intros ?%elem_of_nil|].
  assert (servers (Listen :: match listen w with
                             | inl _ => []
                             | inr url =>
                                 [ConsoleLog ("GraphQL server is running at: "
                                              +:+ url)]
                             end) = []) as Hpost by by destruct (listen w).
  change (servers (NewApolloServer ?c :: ?t)) with (c :: servers t).
  rewrite Hpost. intros ->%list_elem_of_singleton.
  exists le, remote, mono, pre. eexists.
  repeat split; try done; by destruct (listen w).
Qed.

(** C7: whenever a run of [main] hands schemas to the composer, it does so
    once, and the sequence is the local fragment, then the remote-function
    fragment exactly when [ENABLE_IO_FUNCTIONS] is set, then the monolith
    fragment exactly when [LEGACY_GRAPHQL_URL] is set; so it is never empty
    and its first element is the local fragment. *)
Theorem composer_input_order (w : World) (schemas : list GraphQLSchema) :
  MergeSchemas schemas ∈ events (main w) →
  ∃ le remote mono,
    outcome (collectLocalExtensions w) = inr le
    ∧ optionalFragment (truthy (readVar w "ENABLE_IO_FUNCTIONS"))
        (collectRemoteExtensions w) remote
    ∧ optionalFragment (truthy (readVar w "LEGACY_GRAPHQL_URL"))
        (getExecutableFallbackSchema w) mono
    ∧ schemas = [executableSchema le] ++ option_list remote ++ option_list mono
    ∧ schemas ≠ []
    ∧ head schemas = Some (executableSchema le)
    ∧ merges (events (main w)) = [schemas].
Proof.
  rewrite merges_elem.
  destruct (main_cases w) as [(Hm & _)|(le & remote & mono & pre & Hl & Hr & Hf
                                         & Hm & _ & _ & Hev)].
  { rewrite Hm. by intros ?%elem_of_nil. }
  pose proof (serverEvents_projections w le
                (executableSchema le :: option_list remote ++ option_list mono))
    as (Hsm & _).
  rewrite Hev, merges_app, Hm.
  change (merges (MergeSchemas ?l :: ?t)) with (l :: merges t).
  rewrite Hsm. intros ->%list_elem_of_singleton.
  exists le, remote, mono. repeat split; done.
Qed.

(** With every fragment enabled. *)
Lemma composer_input_order_witness :
  Demo.schemas ≠ []
  ∧ head Demo.schemas
    = Some (executableSchema (Demo.localExtensions Demo.world))
  ∧ merges (events (main Demo.world)) = [Demo.schemas].
Proof.
  destruct (composer_input_order Demo.world Demo.schemas)
    as (le & remote & mono & Hl & _ & _ & _ & Hne & Hhd & Hm).
  { compute_done. }
  split; [exact Hne|]. split; [|exact Hm].
  rewrite Hhd. f_equal. unfold Demo.localExtensions. by rewrite Hl.
Defined.

(** C1: in the schema the server is constructed on, each field is, whole
    (shape and resolver), the field of the highest-precedence fragment that
    defines it: the monolith's if the monolith fragment has it, else the
    remote-function fragment's if that one has it, else the local one. *)
Theorem highest_precedence_fragment_wins (w : World) (cfg : ServerConfig) :
  NewApolloServer cfg ∈ events (main w) →
  ∃ le remote mono,
    outcome (collectLocalExtensions w) = inr le
    ∧ optionalFragment (truthy (readVar w "ENABLE_IO_FUNCTIONS"))
        (collectRemoteExtensions w) remote
    ∧ optionalFragment (truthy (readVar w "LEGACY_GRAPHQL_URL"))
        (getExecutableFallbackSchema w) mono
    ∧ ∀ typeName fieldName,
        getField (schema cfg) typeName fieldName
        = (mono ≫= λ m, getField m typeName fieldName)
          ∪ (remote ≫= λ r, getField r typeName fieldName)
          ∪ getField (executableSchema le) typeName fieldName.
Proof.
  intros (le & remote & mono & pre & post & Hl & Hr & Hf & Hmerged & _)
    %main_server_inv.
  exists le, remote, mono. repeat split; try done.
  intros t f. by apply getField_mergeSchemas.
Qed.

(** C8: with neither [ENABLE_IO_FUNCTIONS] nor [LEGACY_GRAPHQL_URL] set,
    once the local fragment is built the composer is given that fragment
    alone, composition returns it unchanged, and the server is constructed
    on it with the local data sources. *)
Theorem local_only_composition_is_identity (w : World) (le : LocalExtensions) :
  truthy (readVar w "ENABLE_IO_FUNCTIONS") = false →
  truthy (readVar w "LEGACY_GRAPHQL_URL") = false →
  outcome (collectLocalExtensions w) = inr le →
  merges (events (main w)) = [[executableSchema le]]
  ∧ mergeSchemas [executableSchema le] = inr (executableSchema le)
  ∧ servers (events (main w))
    = [mkServerConfig (executableSchema le) (localDataSources le)
         [("function", FunctionDirectiveVisitor)]].
Proof.
  intros Hio Hlegacy Hlocal.
  destruct (main_cases w) as [(_ & _ & Hfail)|(le' & remote & mono & pre & Hl
                                               & Hr & Hf & Hm & Hs & _ & Hev)].
  { unfold failed in Hfail. destruct Hfail as [[e He]|[[? _]|[? _]]]; congruence. }
  rewrite Hio in Hr. rewrite Hlegacy in Hf. simpl in Hr, Hf. subst remote mono.
  assert (le' = le) as -> by congruence.
  pose proof (serverEvents_projections w le [executableSchema le])
    as (Hsm & _ & Hss).
  change (option_list None ++ option_list None)
    with (@nil GraphQLSchema) in Hev.
  rewrite Hev, merges_app, servers_app, Hm, Hs.
  change (merges (MergeSchemas ?l :: ?t)) with (l :: merges t).
  change (servers (MergeSchemas ?l :: ?t)) with (servers t).
  by rewrite Hsm, Hss.
Qed.

(** C3, as the code has it: in a run that constructs the server, the
    function directive visitor is registered with the server once, on the
    schema composition returned, after the schemas were handed to the
    composer; and when [ENABLE_IO_FUNCTIONS] is set the visitor is in
    addition applied once, before composition, to the remote-function
    fragment that is then handed to the composer.  Nothing is bound
    afterwards. *)
Theorem directive_binding_points (w : World) (cfg : ServerConfig) :
  NewApolloServer cfg ∈ events (main w) →
  ∃ pre post schemas,
    events (main w) = pre ++ MergeSchemas schemas :: NewApolloServer cfg :: post
    ∧ mergeSchemas schemas = inr (schema cfg)
    ∧ schemaDirectives cfg = [("function", FunctionDirectiveVisitor)]
    ∧ servers pre = [] ∧ servers post = [] ∧ visits post = []
    ∧ if truthy (readVar w "ENABLE_IO_FUNCTIONS")
      then ∃ io, outcome (collectRemoteExtensions w) = inr io
                 ∧ visits pre = [io] ∧ io ∈ schemas
      else visits pre = [].
Proof.
  intros (le & remote & mono & pre & post & Hl & Hr & Hf & Hmerged & Hcfg
          & Hev & _ & Hs & Hv & _ & Hs' & Hv')%main_server_inv.
  exists pre, post. eexists. split; [exact Hev|].
  repeat split; try done.
  { by rewrite Hcfg. }
  unfold optionalFragment in Hr.
  destruct (truthy (readVar w "ENABLE_IO_FUNCTIONS")).
  - destruct Hr as (io & Hio & ->). exists io. repeat split; try done.
    simpl. set_solver.
  - by subst remote.
Qed.

(** With every fragment enabled. *)
Lemma highest_precedence_fragment_wins_witness :
  ∃ le remote mono,
    outcome (collectLocalExtensions Demo.world) = inr le
    ∧ optionalFragment (truthy (readVar Demo.world "ENABLE_IO_FUNCTIONS"))
        (collectRemoteExtensions Demo.world) remote
    ∧ optionalFragment (truthy (readVar Demo.world "LEGACY_GRAPHQL_URL"))
        (getExecutableFallbackSchema Demo.world) mono
    ∧ ∀ typeName fieldName,
        getField (schema Demo.serverConfig) typeName fieldName
        = (mono ≫= λ m, getField m typeName fieldName)
          ∪ (remote ≫= λ r, getField r typeName fieldName)
          ∪ getField (executableSchema le) typeName fieldName.
Proof.
  apply (highest_precedence_fragment_wins Demo.world Demo.serverConfig).
  compute_done.
Defined.

(** The local [Query.price] is overridden by the remote package's, and the
    monolith's [Query.products] is delegated. *)
Example composed_fields_of_demo :
  getField (schema Demo.serverConfig) "Query" "price"
  = Some (mkField "Float" [mkDirective "function" [("name", "catalog::getPrice")]]
            (ExternalFunctionCall "catalog::getPrice"))
  ∧ getField (schema Demo.serverConfig) "Query" "greet"
    = Some (mkField "String" [mkDirective "function" [("name", "pkgB::greet")]]
              (ExternalFunctionCall "pkgB::greet"))
  ∧ getField (schema Demo.serverConfig) "Query" "hello"
    = Some (mkField "String" [] (LocalFunction "helloResolver"))
  ∧ getField (schema Demo.serverConfig) "Query" "products"
    = Some (mkField "Products" [] (RemoteDelegate Demo.monolithURL)).
Proof. repeat split; vm_compute; reflexivity. Qed.

(** With only the local packages. *)
Lemma local_only_composition_is_identity_witness :
  merges (events (main Demo.localOnly))
  = [[executableSchema (Demo.localExtensions Demo.localOnly)]]
  ∧ mergeSchemas [executableSchema (Demo.localExtensions Demo.localOnly)]
    = inr (executableSchema (Demo.localExtensions Demo.localOnly))
  ∧ servers (events (main Demo.localOnly))
    = [mkServerConfig
         (executableSchema (Demo.localExtensions Demo.localOnly))
         (localDataSources (Demo.localExtensions Demo.localOnly))
         [("function", FunctionDirectiveVisitor)]].
Proof.
  apply (local_only_composition_is_identity Demo.localOnly
           (Demo.localExtensions Demo.localOnly));
    vm_compute; reflexivity.
Defined.

(** With every fragment enabled. *)
Lemma directive_binding_points_witness :
  ∃ pre post schemas,
    events (main Demo.world)
    = pre ++ MergeSchemas schemas :: NewApolloServer Demo.serverConfig :: post
    ∧ mergeSchemas schemas = inr (schema Demo.serverConfig)
    ∧ schemaDirectives Demo.serverConfig
      = [("function", FunctionDirectiveVisitor)]
    ∧ servers pre = [] ∧ servers post = [] ∧ visits post = []
    ∧ if truthy (readVar Demo.world "ENABLE_IO_FUNCTIONS")
      then ∃ io, outcome (collectRemoteExtensions Demo.world) = inr io
                 ∧ visits pre = [io] ∧ io ∈ schemas
      else visits pre = [].
Proof.
  apply (directive_binding_points Demo.world Demo.serverConfig).
  compute_done.
Defined.

(** C3 as stated fails: with remote functions enabled, the third event of
    the run applies the directive visitor to the remote-function fragment
    alone, and only the fourth hands that fragment, with the local one, to
    the composer; the server then registers the visitor again. *)
Lemma remote_fragment_bound_before_composition :
  ∃ le io,
    outcome (collectLocalExtensions Demo.remoteOnly) = inr le
    ∧ outcome (collectRemoteExtensions Demo.remoteOnly) = inr io
    ∧ events (main Demo.remoteOnly) !! 2 = Some (VisitSchemaDirectives io)
    ∧ events (main Demo.remoteOnly) !! 3
      = Some (MergeSchemas [executableSchema le; io])
    ∧ visits (events (main Demo.remoteOnly)) = [io]
    ∧ schemaDirectives <$> servers (events (main Demo.remoteOnly))
      = [[("function", FunctionDirectiveVisitor)]].
Proof.
  eexists _, _. split; [vm_compute; reflexivity|].
  split; [vm_compute; reflexivity|].
  repeat split; vm_compute; reflexivity.
Qed.

(** C5, as the code has it: when every discovered package holds a document
    of its own, the rewritten document of a package [P] is what rewriting [P] alone gives,
    whatever the packages processed before and after it: its own document
    with the function directives' names qualified by [P]'s name, as
    package name, separator, raw name. *)
Theorem rewrite_is_per_package (ioSchemaDefs : list IoSchemaDef)
    (σ : gmap nat Document) (P : IoSchemaDef) :
  NoDup (schemaDef <$> ioSchemaDefs) →
  P ∈ ioSchemaDefs →
  prependAll ioSchemaDefs σ !! schemaDef P = prependAll [P] σ !! schemaDef P
  ∧ deref (prependAll ioSchemaDefs σ) P
    = FunctionDirective.prependPkgNameToFunctionDirectives (deref σ P) (pkg P)
  ∧ ∀ raw,
      FunctionDirective.rewriteDirective (pkg P)
        (mkDirective "function" [("name", raw)])
      = mkDirective "function"
          [("name", pkg P +:+ FunctionDirective.separator +:+ raw)].
Proof.
  intros Hnd HP.
  pose proof (prependAll_lookup ioSchemaDefs σ P Hnd HP) as Hall.
  split; [|split].
  - rewrite Hall. symmetry. apply prependAll_lookup.
    + apply NoDup_singleton.
    + by apply list_elem_of_singleton.
  - unfold deref, Document in *. rewrite Hall. by destruct (σ !! schemaDef P).
  - done.
Qed.

(** The package [catalog], discovered before [pkgB]. *)
Lemma rewrite_is_per_package_witness :
  deref (prependAll Demo.discovered Demo.documents) (mkIoSchemaDef "catalog" 0)
  = [TypeExtension "Query"
       [mkFieldDef "price" "Float"
          [mkDirective "function" [("name", "catalog::getPrice")]]]].
Proof.
  destruct (rewrite_is_per_package Demo.discovered Demo.documents
              (mkIoSchemaDef "catalog" 0)) as (_ & -> & _).
  - compute_done.
  - compute_done.
  - vm_compute. reflexivity.
Defined.

(** C5 as stated fails: for a list in which the packages [catalog] and
    [pkgB] hold the same document, the rewritten document of [catalog] is
    not what rewriting [catalog] alone gives, which is the document
    qualified by [catalog]'s name. *)
Lemma shared_document_breaks_independence :
  mkIoSchemaDef "catalog" 0
    ∈ [mkIoSchemaDef "catalog" 0; mkIoSchemaDef "pkgB" 0]
  ∧ prependAll [mkIoSchemaDef "catalog" 0; mkIoSchemaDef "pkgB" 0]
      Demo.documents !! 0
    ≠ prependAll [mkIoSchemaDef "catalog" 0] Demo.documents !! 0
  ∧ deref (prependAll [mkIoSchemaDef "catalog" 0; mkIoSchemaDef "pkgB" 0]
             Demo.documents)
          (mkIoSchemaDef "catalog" 0)
    ≠ FunctionDirective.prependPkgNameToFunctionDirectives
        (deref Demo.documents (mkIoSchemaDef "catalog" 0)) "catalog".
Proof.
  split; [compute_done|].
  split; intros H; vm_compute in H; discriminate.
Qed.

(** The hypothesis on the references is needed: a document shared by two
    descriptors is mutated once for each. *)
Example shared_document_is_rewritten_twice :
  deref (prependAll [mkIoSchemaDef "catalog" 0; mkIoSchemaDef "pkgB" 0]
           Demo.documents)
        (mkIoSchemaDef "catalog" 0)
  = [TypeExtension "Query"
       [mkFieldDef "price" "Float"
          [mkDirective "function" [("name", "pkgB::catalog::getPrice")]]]].
Proof. vm_compute. reflexivity. Qed.

(** C6: the definitions the collector gives to the schema builder start
    with the two base declarations, the placeholder root type [Query] and
    the grammar of the function directive; every declaration of a package
    comes after both. *)
Theorem base_declarations_come_first (w : World)
    (ioSchemaDefs : list IoSchemaDef) :
  getAllRemoteGQLSchemas w (readVar w "ADOBE_IO_NAMESPACE") = inr ioSchemaDefs →
  let σ := prependAll ioSchemaDefs (heap w) in
  let perPackage := concat (map (deref σ) ioSchemaDefs) in
  let definitions := concat (ioTypeDefs ioSchemaDefs σ) in
  outcome (collectRemoteExtensions w)
  = match makeExecutableSchema (ioTypeDefs ioSchemaDefs σ) ∅ with
    | inl e => inl e
    | inr s => inr (visitSchemaDirectives s)
    end
  ∧ definitions
    = [ TypeDefinition ObjectKind "Query" [mkFieldDef "ignoreMe" "String" []];
        DirectiveDefinition "function" [("name", "String!")]
          ["FIELD_DEFINITION"] ]
      ++ perPackage
  ∧ ∀ i d, perPackage !! i = Some d → definitions !! (2 + i) = Some d.
Proof.
  intros Hds σ perPackage definitions.
  split; [|split].
  - rewrite collectRemoteExtensions_outcome, Hds. done.
  - done.
  - intros i d Hd. exact Hd.
Qed.

(** With the packages [catalog] and [pkgB]. *)
Lemma base_declarations_come_first_witness :
  concat (ioTypeDefs Demo.discovered
            (prependAll Demo.discovered (heap Demo.world)))
  = [ TypeDefinition ObjectKind "Query" [mkFieldDef "ignoreMe" "String" []];
      DirectiveDefinition "function" [("name", "String!")]
        ["FIELD_DEFINITION"] ]
    ++ concat (map (deref (prependAll Demo.discovered (heap Demo.world)))
                 Demo.discovered).
Proof.
  apply (base_declarations_come_first Demo.world Demo.discovered).
  reflexivity.
Defined.



(** * Further properties of the sources *)

(** ** Outcomes of [main] *)

Lemma main_tail_outcome (w : World) (le : LocalExtensions)
    (schemas : list GraphQLSchema) :
  outcome
    (emit (MergeSchemas schemas);;
     merged ← await (mergeSchemas schemas);
     emit (NewApolloServer
             (mkServerConfig merged (localDataSources le)
                [("function", FunctionDirectiveVisitor)]));;
     emit Listen;;
     url ← await (listen w);
     emit (ConsoleLog ("GraphQL server is running at: " +:+ url)))
  = match mergeSchemas schemas with
    | inl e => inl e
    | inr _ => match listen w with inl e => inl e | inr _ => inr () end
    end.
Proof. destruct (mergeSchemas schemas), (listen w); reflexivity. Qed.

(** The stages of [main], in order; the first that throws decides. *)
Lemma main_outcome (w : World) :
  outcome (main w)
  = match outcome (collectLocalExtensions w) with
    | inl e => inl e
    | inr le =>
        match (if truthy (readVar w "ENABLE_IO_FUNCTIONS")
               then match outcome (collectRemoteExtensions w) with
                    | inl e => inl e
                    | inr io => inr (Some io)
                    end
               else inr None) with
        | inl e => inl e
        | inr remote =>
            match (if truthy (readVar w "LEGACY_GRAPHQL_URL")
                   then match outcome (getExecutableFallbackSchema w) with
                        | inl e => inl e
                        | inr fallback => inr (Some fallback)
                        end
                   else inr None) with
            | inl e => inl e
            | inr mono =>
                match mergeSchemas (executableSchema le
                                    :: option_list remote ++ option_list mono)
                with
                | inl e => inl e
                | inr _ =>
                    match listen w with inl e => inl e | inr _ => inr () end
                end
            end
        end
    end.
Proof.
  unfold main. rewrite outcome_bind.
  destruct (outcome (collectLocalExtensions w)) as [e|le]; [done|].
  rewrite outcome_bind.
  destruct (optional_push (truthy (readVar w "ENABLE_IO_FUNCTIONS"))
              (collectRemoteExtensions w) [executableSchema le]) as [_ ->].
  assert (∀ remote : option GraphQLSchema,
    outcome
      ((if truthy (readVar w "LEGACY_GRAPHQL_URL")
        then fallback ← getExecutableFallbackSchema w;
             mret (([executableSchema le] ++ option_list remote) ++ [fallback])
        else mret ([executableSchema le] ++ option_list remote))
       ≫= λ schemas,
            emit (MergeSchemas schemas);;
            merged ← await (mergeSchemas schemas);
            emit (NewApolloServer
                    (mkServerConfig merged (localDataSources le)
                       [("function", FunctionDirectiveVisitor)]));;
            emit Listen;;
            url ← await (listen w);
            emit (ConsoleLog ("GraphQL server is running at: " +:+ url)))
    = match (if truthy (readVar w "LEGACY_GRAPHQL_URL")
             then match outcome (getExecutableFallbackSchema w) with
                  | inl e => inl e
                  | inr fallback => inr (Some fallback)
                  end
             else inr None) with
      | inl e => inl e
      | inr mono =>
          match mergeSchemas (executableSchema le
                              :: option_list remote ++ option_list mono)
          with
          | inl e => inl e
          | inr _ => match listen w with inl e => inl e | inr _ => inr () end
          end
      end) as Hrest.
  { intros remote. rewrite outcome_bind.
    destruct (optional_push (truthy (readVar w "LEGACY_GRAPHQL_URL"))
                (getExecutableFallbackSchema w)
                ([executableSchema le] ++ option_list remote)) as [_ ->].
    destruct (truthy (readVar w "LEGACY_GRAPHQL_URL")).
    - destruct (outcome (getExecutableFallbackSchema w)) as [e|fb]; [done|].
      by rewrite main_tail_outcome.
    - rewrite main_tail_outcome. simpl. by rewrite app_nil_r. }
  destruct (truthy (readVar w "ENABLE_IO_FUNCTIONS")).
  - destruct (outcome (collectRemoteExtensions w)) as [e|io]; [done|].
    exact (Hrest (Some io)).
  - exact (Hrest None).
Qed.

(** A property of every event carries over binds. *)
Lemma events_bind_Forall {A B} (P : Event → Prop) (m : M A) (f : A → M B) :
  Forall P (events m) → (∀ a, Forall P (events (f a))) →
  Forall P (events (m ≫= f)).
Proof.
  intros Hm Hf. rewrite events_bind. apply Forall_app. split; [done|].
  destruct (outcome m); [constructor|apply Hf].
Qed.

Lemma collectLocalExtensions_kinds (w : World) :
  Forall mainEvent (events (collectLocalExtensions w)).
Proof.
  unfold collectLocalExtensions, await.
  destruct (localPackages w) as [e|cfg]; simpl; [constructor|].
  destruct (makeExecutableSchema _ _); repeat constructor.
Qed.

Lemma collectRemoteExtensions_kinds (w : World) :
  Forall mainEvent (events (collectRemoteExtensions w)).
Proof.
  unfold collectRemoteExtensions, await.
  destruct (getAllRemoteGQLSchemas w _) as [e|ds]; simpl; [constructor|].
  destruct (makeExecutableSchema _ _); repeat constructor.
Qed.

Lemma main_kinds (w : World) : Forall mainEvent (events (main w)).
Proof.
  unfold main.
  apply events_bind_Forall; [apply collectLocalExtensions_kinds|intros le].
  apply events_bind_Forall.
  { destruct (truthy _); [|constructor].
    apply events_bind_Forall; [apply collectRemoteExtensions_kinds|].
    intros; constructor. }
  intros schemas. apply events_bind_Forall.
  { destruct (truthy _); [|constructor].
    apply events_bind_Forall;
      [rewrite getExecutableFallbackSchema_events|intros]; constructor. }
  intros schemas'. rewrite main_tail. unfold serverEvents.
  destruct (mergeSchemas schemas'), (listen w); repeat constructor.
Qed.

Lemma collectLocalExtensions_outcome (w : World) :
  outcome (collectLocalExtensions w)
  = match localPackages w with
    | inl e => inl e
    | inr cfgs =>
        match makeExecutableSchema (typeDefs cfgs) (resolvers cfgs) with
        | inl e => inl e
        | inr s => inr (mkLocalExtensions s (pkgDataSources cfgs))
        end
    end.
Proof.
  unfold collectLocalExtensions, await.
  destruct (localPackages w) as [e|cfgs]; [done|].
  cbn -[makeExecutableSchema]. by destruct (makeExecutableSchema _ _).
Qed.

(** X1: the data sources given to the server are the local packages' data
    sources, whatever other fragments are enabled: the remote-function and
    monolith fragments contribute none. *)
Theorem server_data_sources_are_local (w : World) (cfg : ServerConfig) :
  NewApolloServer cfg ∈ events (main w) →
  ∃ cfgs, localPackages w = inr cfgs
          ∧ dataSources cfg = pkgDataSources cfgs.
Proof.
  intros (le & remote & mono & pre & post & Hl & _ & _ & _ & Hcfg & _)
    %main_server_inv.
  rewrite collectLocalExtensions_outcome in Hl.
  destruct (localPackages w) as [e|cfgs]; [done|].
  destruct (makeExecutableSchema _ _) as [e|s]; [done|].
  injection Hl as <-. exists cfgs. split; [done|]. by rewrite Hcfg.
Qed.

(** With every fragment enabled. *)
Lemma server_data_sources_are_local_witness :
  ∃ cfgs, localPackages Demo.world = inr cfgs
          ∧ dataSources Demo.serverConfig = pkgDataSources cfgs.
Proof.
  apply (server_data_sources_are_local Demo.world Demo.serverConfig).
  compute_done.
Defined.

Lemma main_outcome_collected (w : World) (le : LocalExtensions)
    (remote mono : option GraphQLSchema) :
  outcome (collectLocalExtensions w) = inr le →
  optionalFragment (truthy (readVar w "ENABLE_IO_FUNCTIONS"))
    (collectRemoteExtensions w) remote →
  optionalFragment (truthy (readVar w "LEGACY_GRAPHQL_URL"))
    (getExecutableFallbackSchema w) mono →
  outcome (main w)
  = match mergeSchemas (executableSchema le
                        :: option_list remote ++ option_list mono) with
    | inl e => inl e
    | inr _ => match listen w with inl e => inl e | inr _ => inr () end
    end.
Proof.
  intros Hl Hr Hf. rewrite main_outcome, Hl.
  unfold optionalFragment in Hr, Hf.
  destruct (truthy (readVar w "ENABLE_IO_FUNCTIONS")),
    (truthy (readVar w "LEGACY_GRAPHQL_URL"));
    repeat match goal with
           | H : ∃ _, _ |- _ => destruct H as (? & -> & ->)
           end; by subst.
Qed.

Lemma main_outcome_failed (w : World) :
  failed (collectLocalExtensions w)
  ∨ (truthy (readVar w "ENABLE_IO_FUNCTIONS") = true
     ∧ failed (collectRemoteExtensions w))
  ∨ (truthy (readVar w "LEGACY_GRAPHQL_URL") = true
     ∧ failed (getExecutableFallbackSchema w)) →
  failed (main w).
Proof.
  unfold failed. rewrite main_outcome.
  intros [[e He]|[[Hio [e He]]|[Hleg [e He]]]].
  - rewrite He. eauto.
  - destruct (outcome (collectLocalExtensions w)); [eauto|].
    rewrite Hio, He. eauto.
  - destruct (outcome (collectLocalExtensions w)); [eauto|].
    destruct (if truthy (readVar w "ENABLE_IO_FUNCTIONS") then _ else _);
      [eauto|].
    rewrite Hleg, He. eauto.
Qed.

Lemma program_of_outcome (w : World) :
  program w
  = events (main w) ++ match outcome (main w) with
                       | inl e => [ConsoleError e; ProcessExit 1]
                       | inr _ => []
                       end.
Proof.
  unfold program, outcome, events. destruct (main w) as [t [e|u]]; simpl;
    by rewrite ?app_nil_r.
Qed.

(** X2: startup fails fast.  If the local fragment cannot be built, or an
    enabled remote-function or monolith fragment cannot, then nothing is
    handed to the composer, no server is constructed, [main] throws, and the
    process prints the error and exits with code 1. *)
Theorem startup_fails_fast (w : World) :
  failed (collectLocalExtensions w)
  ∨ (truthy (readVar w "ENABLE_IO_FUNCTIONS") = true
     ∧ failed (collectRemoteExtensions w))
  ∨ (truthy (readVar w "LEGACY_GRAPHQL_URL") = true
     ∧ failed (getExecutableFallbackSchema w)) →
  merges (events (main w)) = []
  ∧ servers (events (main w)) = []
  ∧ ∃ e, outcome (main w) = inl e
         ∧ program w = events (main w) ++ [ConsoleError e; ProcessExit 1].
Proof.
  intros Hfail.
  destruct (main_outcome_failed w Hfail) as [e He].
  destruct (main_cases w) as [(Hm & Hs & _)|(le & remote & mono & pre & Hl & Hr
                                             & Hf & _)].
  - repeat split; try done. exists e. split; [done|].
    by rewrite program_of_outcome, He.
  - exfalso. unfold optionalFragment, failed in *.
    destruct Hfail as [[e' He']|[[Hio [e' He']]|[Hleg [e' He']]]].
    + congruence.
    + rewrite Hio in Hr. destruct Hr as (? & ? & _). congruence.
    + rewrite Hleg in Hf. destruct Hf as (? & ? & _). congruence.
Qed.

(** With the catalog of remote packages unreachable. *)
Lemma startup_fails_fast_witness :
  merges (events (main Demo.brokenRemote)) = []
  ∧ servers (events (main Demo.brokenRemote)) = []
  ∧ ∃ e, outcome (main Demo.brokenRemote) = inl e
         ∧ program Demo.brokenRemote
           = events (main Demo.brokenRemote) ++ [ConsoleError e; ProcessExit 1].
Proof.
  apply (startup_fails_fast Demo.brokenRemote).
  right. left. split; [reflexivity|]. exists Demo.timedOut. reflexivity.
Defined.

(** X3: errors are rethrown unchanged, earliest stage first: [main] throws
    the local collection's error if that fails; else the remote collection's
    error if remote functions are enabled and it fails; else the
    introspection error of the monolith, unwrapped, if the legacy URL is set
    and introspection fails. *)
Theorem first_failure_is_rethrown (w : World) (e : Js.Error) :
  (outcome (collectLocalExtensions w) = inl e → outcome (main w) = inl e)
  ∧ (¬ failed (collectLocalExtensions w) →
     truthy (readVar w "ENABLE_IO_FUNCTIONS") = true →
     outcome (collectRemoteExtensions w) = inl e →
     outcome (main w) = inl e)
  ∧ (¬ failed (collectLocalExtensions w) →
     (truthy (readVar w "ENABLE_IO_FUNCTIONS") = true →
      ¬ failed (collectRemoteExtensions w)) →
     truthy (readVar w "LEGACY_GRAPHQL_URL") = true →
     introspectSchema w (readVar w "LEGACY_GRAPHQL_URL") = inl e →
     outcome (main w) = inl e).
Proof.
  rewrite main_outcome. unfold failed. repeat split.
  - by intros ->.
  - intros Hl Hio He.
    destruct (outcome (collectLocalExtensions w)) as [e'|le].
    { destruct Hl. eauto. }
    by rewrite Hio, He.
  - intros Hl Hr Hleg He.
    destruct (outcome (collectLocalExtensions w)) as [e'|le].
    { destruct Hl. eauto. }
    assert (outcome (getExecutableFallbackSchema w) = inl e) as Hfb.
    { unfold getExecutableFallbackSchema, await. by rewrite He. }
    destruct (truthy (readVar w "ENABLE_IO_FUNCTIONS")).
    + destruct (outcome (collectRemoteExtensions w)) as [e'|io].
      { destruct Hr; eauto. }
      by rewrite Hleg, Hfb.
    + by rewrite Hleg, Hfb.
Qed.

(** With the monolith unreachable: the introspection error itself. *)
Lemma first_failure_is_rethrown_witness :
  outcome (main Demo.unreachableMonolith) = inl Demo.refused.
Proof.
  apply (first_failure_is_rethrown Demo.unreachableMonolith Demo.refused).
  - intros [e He]. vm_compute in He. discriminate.
  - intros Hio. vm_compute in Hio. discriminate.
  - reflexivity.
  - reflexivity.
Defined.

(** What follows the construction of the server. *)
Lemma main_after_server (w : World) (cfg : ServerConfig) :
  NewApolloServer cfg ∈ events (main w) →
  ∃ pre,
    events (main w)
    = pre ++ NewApolloServer cfg :: Listen
          :: match listen w with
             | inl _ => []
             | inr url =>
                 [ConsoleLog ("GraphQL server is running at: " +:+ url)]
             end
    ∧ servers pre = []
    ∧ outcome (main w)
      = match listen w with inl e => inl e | inr _ => inr () end.
Proof.
  intros Hin. apply servers_elem in Hin.
  destruct (main_cases w) as [(_ & Hs & _)|(le & remote & mono & pre & Hl & Hr
                                            & Hf & _ & Hs & _ & Hev)].
  { rewrite Hs in Hin. by apply elem_of_nil in Hin. }
  pose proof (main_outcome_collected w le remote mono Hl Hr Hf) as Hout.
  rewrite Hev, servers_app, Hs in Hin.
  change (servers (MergeSchemas ?l :: ?t)) with (servers t) in Hin.
  unfold serverEvents in Hev, Hin.
  destruct (mergeSchemas _) as [e|merged]; [by apply elem_of_nil in Hin|].
  change (servers (NewApolloServer ?c :: Listen :: ?t)) with (c :: servers t)
    in Hin.
  assert (servers match listen w with
                  | inl _ => []
                  | inr url =>
                      [ConsoleLog ("GraphQL server is running at: " +:+ url)]
                  end = []) as Hpost by by destruct (listen w).
  rewrite Hpost in Hin. apply list_elem_of_singleton in Hin. subst cfg.
  eexists (pre ++ [MergeSchemas _]). split; [|split].
  - rewrite Hev, <- app_assoc. reflexivity.
  - by rewrite servers_app, Hs.
  - done.
Qed.

(** X4: a run of [main] that returns ends by constructing the server,
    listening, and printing the address the listener reported, in that
    order; the process then neither prints an error nor exits. *)
Theorem successful_run_ends_listening (w : World) :
  outcome (main w) = inr () →
  ∃ pre cfg url,
    listen w = inr url
    ∧ events (main w)
      = pre ++ [NewApolloServer cfg; Listen;
                ConsoleLog ("GraphQL server is running at: " +:+ url)]
    ∧ servers pre = []
    ∧ program w = events (main w).
Proof.
  intros Hok.
  assert (program w = events (main w)) as Hprog.
  { by rewrite program_of_outcome, Hok, app_nil_r. }
  destruct (main_cases w) as [(_ & _ & Hfail)|(le & remote & mono & pre & Hl
                                               & Hr & Hf & _ & Hs & _ & Hev)].
  { destruct (main_outcome_failed w Hfail) as [e He]. congruence. }
  rewrite (main_outcome_collected w le remote mono Hl Hr Hf) in Hok.
  unfold serverEvents in Hev.
  destruct (mergeSchemas _) as [e|merged]; [done|].
  destruct (listen w) as [e|url]; [done|].
  eexists (pre ++ [MergeSchemas _]), _, url.
  split; [done|]. split.
  { rewrite Hev, <- app_assoc. reflexivity. }
  split; [|done]. by rewrite servers_app, Hs.
Qed.

(** With every fragment enabled. *)
Lemma successful_run_ends_listening_witness :
  ∃ pre cfg url,
    listen Demo.world = inr url
    ∧ events (main Demo.world)
      = pre ++ [NewApolloServer cfg; Listen;
                ConsoleLog ("GraphQL server is running at: " +:+ url)]
    ∧ servers pre = []
    ∧ program Demo.world = events (main Demo.world).
Proof.
  apply (successful_run_ends_listening Demo.world).
  vm_compute. reflexivity.
Defined.

(** X5: when composition throws, or the listener does, the error is
    [main]'s: after a failed composition no server is constructed, and after
    a failed [listen] the address line is never printed, the run ending
    with the [Listen] event. *)
Theorem late_failures_are_rethrown (w : World) (e : Js.Error) :
  (∀ schemas, MergeSchemas schemas ∈ events (main w) →
              mergeSchemas schemas = inl e →
              servers (events (main w)) = [] ∧ outcome (main w) = inl e)
  ∧ (∀ cfg, NewApolloServer cfg ∈ events (main w) →
            listen w = inl e →
            outcome (main w) = inl e
            ∧ last (events (main w)) = Some Listen).
Proof.
  split.
  - intros schemas Hin Hmerge. apply merges_elem in Hin.
    destruct (main_cases w) as [(Hm & _)|(le & remote & mono & pre & Hl & Hr
                                          & Hf & Hm & Hs & _ & Hev)].
    { rewrite Hm in Hin. by apply elem_of_nil in Hin. }
    pose proof (serverEvents_projections w le
                  (executableSchema le
                   :: option_list remote ++ option_list mono))
      as (Hsm & _ & Hss).
    rewrite Hev, merges_app, Hm in Hin.
    change (merges (MergeSchemas ?l :: ?t)) with (l :: merges t) in Hin.
    rewrite Hsm in Hin. apply list_elem_of_singleton in Hin. subst schemas.
    split.
    + rewrite Hev, servers_app, Hs.
      change (servers (MergeSchemas ?l :: ?t)) with (servers t).
      by rewrite Hss, Hmerge.
    + by rewrite (main_outcome_collected w le remote mono Hl Hr Hf), Hmerge.
  - intros cfg (pre & Hev & _ & Hout)%main_after_server Hlisten.
    rewrite Hlisten in Hev, Hout. split; [done|].
    rewrite Hev. change (?a :: Listen :: []) with ([a] ++ [Listen]).
    by rewrite app_assoc, last_snoc.
Qed.

(** A monolith whose [Query] is a scalar, and a port that is taken. *)
Lemma late_failures_are_rethrown_witness :
  (servers (events (main Demo.conflictingMonolith)) = []
   ∧ outcome (main Demo.conflictingMonolith) = inl (conflictError "Query"))
  ∧ outcome (main Demo.portTaken) = inl Demo.addressInUse
  ∧ last (events (main Demo.portTaken)) = Some Listen.
Proof.
  split.
  - apply (proj1 (late_failures_are_rethrown Demo.conflictingMonolith
                    (conflictError "Query"))
             [executableSchema (Demo.localExtensions Demo.conflictingMonolith);
              Demo.fragmentOf
                (getExecutableFallbackSchema Demo.conflictingMonolith)]).
    + compute_done.
    + vm_compute. reflexivity.
  - apply (proj2 (late_failures_are_rethrown Demo.portTaken Demo.addressInUse)
             (mkServerConfig
                (executableSchema (Demo.localExtensions Demo.portTaken))
                (localDataSources (Demo.localExtensions Demo.portTaken))
                [("function", FunctionDirectiveVisitor)])).
    + compute_done.
    + reflexivity.
Defined.

(** X6: the process exits only after [main] threw, and then with code 1,
    as its last action, right after printing the error. *)
Theorem process_exits_only_on_failure (w : World) (code : nat) :
  ProcessExit code ∈ program w ↔ code = 1 ∧ failed (main w).
Proof.
  rewrite program_of_outcome. unfold failed.
  pose proof (main_kinds w) as Hkinds. rewrite Forall_forall in Hkinds.
  split.
  - intros [Hin|Hin]%elem_of_app.
    + by apply Hkinds in Hin.
    + destruct (outcome (main w)) as [e|u].
      * apply elem_of_cons in Hin as [?|Hin]; [done|].
        apply list_elem_of_singleton in Hin. injection Hin as ->. eauto.
      * by apply elem_of_nil in Hin.
  - intros [-> [e ->]]. set_solver.
Qed.

(** With the catalog of remote packages unreachable. *)
Lemma process_exits_only_on_failure_witness :
  ProcessExit 1 ∈ program Demo.brokenRemote.
Proof.
  apply (process_exits_only_on_failure Demo.brokenRemote 1).
  split; [reflexivity|]. exists Demo.timedOut. reflexivity.
Defined.

(** ** The monolith proxy builder, again *)

(** X7: the builder always logs that it fetches the schema, first; it logs
    an error exactly when introspection failed.  A schema that fails
    validation is reported by the thrown assertion error only, never through
    the logger. *)
Theorem proxy_logs_only_introspection_failures
    (introspectSchema : MonolithProxy.Executor → Js.Error + GraphQLSchema)
    (o : MonolithProxy.Opts) :
  let monolithURL := MonolithProxy.configGetAsString o "MONOLITH_GRAPHQL_URL" in
  events (MonolithProxy.createMonolithProxySchema introspectSchema o)
  = LoggerInfo ("Fetching monolith schema from " +:+ monolithURL)
    :: match introspectSchema (MonolithProxy.createMonolithExecutor monolithURL)
       with
       | inl _ =>
           [LoggerError
              ("Failed introspecting monolith schema from " +:+ monolithURL)]
       | inr _ => []
       end.
Proof.
  intros monolithURL.
  unfold MonolithProxy.createMonolithProxySchema, tryCatch, await.
  fold monolithURL.
  destruct (introspectSchema _) as [e|schema]; [reflexivity|].
  cbn -[getType]. unfold MonolithProxy.assert.
  destruct (getType schema "ProductAttributeFilterInput") as [ty|];
    [|reflexivity].
  simpl. case_bool_decide; [|reflexivity].
  simpl. by destruct (hasOwnProperty _ _).
Qed.

(** X8: the builder throws only two kinds of error: a plain [Error], exactly
    when introspection failed, and an assertion error, with one of the two
    fixed messages, when the introspected schema fails a check.  In
    particular [getFields] is never called on an undefined type. *)
Theorem proxy_errors_are_classified
    (introspectSchema : MonolithProxy.Executor → Js.Error + GraphQLSchema)
    (o : MonolithProxy.Opts) (e : Js.Error) :
  outcome (MonolithProxy.createMonolithProxySchema introspectSchema o) = inl e →
  let monolithURL := MonolithProxy.configGetAsString o "MONOLITH_GRAPHQL_URL" in
  (e = Js.newError (MonolithProxy.introspectionFailedMessage monolithURL)
   ∧ ∃ cause, introspectSchema (MonolithProxy.createMonolithExecutor monolithURL)
              = inl cause)
  ∨ ((e = Js.assertionError MonolithProxy.missingTypeMessage
      ∨ e = Js.assertionError MonolithProxy.missingFieldMessage)
     ∧ ∃ schema, introspectSchema
                   (MonolithProxy.createMonolithExecutor monolithURL)
                 = inr schema).
Proof.
  intros He monolithURL. revert He.
  unfold MonolithProxy.createMonolithProxySchema, tryCatch, await.
  fold monolithURL.
  destruct (introspectSchema _) as [cause|schema].
  { simpl. intros [= <-]. left. eauto. }
  cbn -[getType]. unfold MonolithProxy.assert.
  destruct (getType schema "ProductAttributeFilterInput") as [ty|].
  - simpl. case_bool_decide; simpl.
    + destruct (hasOwnProperty _ _); simpl; [done|].
      intros [= <-]. right. eauto.
    + intros [= <-]. right. eauto.
  - simpl. intros [= <-]. right. eauto.
Qed.

(** A monolith whose filter-input type lacks [sku]. *)
Lemma proxy_errors_are_classified_witness :
  Js.assertionError MonolithProxy.missingFieldMessage
  = Js.assertionError MonolithProxy.missingTypeMessage
  ∨ Js.assertionError MonolithProxy.missingFieldMessage
    = Js.assertionError MonolithProxy.missingFieldMessage.
Proof.
  destruct (proxy_errors_are_classified (λ _, inr Demo.schemaWithoutSku)
              Demo.proxyOpts
              (Js.assertionError MonolithProxy.missingFieldMessage))
    as [[_ [cause Hcause]]|[Hmsg _]].
  - vm_compute. reflexivity.
  - discriminate Hcause.
  - exact Hmsg.
Defined.

(** ** [prepareForServer], when a build fails *)

(** X9: [prepareForServer] throws exactly when one of its two builds does,
    with that build's error: if the first build fails the second is never
    started, and if the second fails no result is returned although the
    first succeeded. *)
Theorem prepareForServer_rethrows (State ContextFn : Type)
    (buildFrameworkSchema : State → (Js.Error + GraphQLSchema) * State)
    (contextBuilder : GraphQLSchema → ContextFn)
    (n : nat) (σ : State) (e : Js.Error) :
  (Server.prepareForServer buildFrameworkSchema contextBuilder (n, σ)).1 = inl e
  ↔ ((buildFrameworkSchema σ).1 = inl e
     ∧ (Server.prepareForServer buildFrameworkSchema contextBuilder (n, σ)).2
       = (S n, (buildFrameworkSchema σ).2))
    ∨ ((∃ gateway, (buildFrameworkSchema σ).1 = inr gateway)
       ∧ (buildFrameworkSchema (buildFrameworkSchema σ).2).1 = inl e
       ∧ (Server.prepareForServer buildFrameworkSchema contextBuilder (n, σ)).2
         = (S (S n), (buildFrameworkSchema (buildFrameworkSchema σ).2).2)).
Proof.
  unfold Server.prepareForServer, Server.callBuildFrameworkSchema.
  destruct (buildFrameworkSchema σ) as [[e1|gateway] σ1]; simpl.
  - split.
    + intros [= <-]. by left.
    + intros [[[= <-] _]|[[g [=]] _]]. done.
  - destruct (buildFrameworkSchema σ1) as [[e2|built] σ2]; simpl.
    + split.
      * intros [= <-]. right. eauto.
      * intros [[[=] _]|(_ & [= <-] & _)]. done.
    + split; [done|]. by intros [[[=] _]|(_ & [=] & _)].
Qed.

(** A build that fails the second time: the error is the second build's. *)
Lemma prepareForServer_rethrows_witness :
  (Server.prepareForServer Demo.buildOnce id (0, false)).2 = (2, true).
Proof.
  destruct (proj1 (prepareForServer_rethrows bool GraphQLSchema Demo.buildOnce
                     id 0 false (Js.newError "schema was already built")))
    as [[Hfirst _]|(_ & _ & Hcount)].
  - reflexivity.
  - discriminate Hfirst.
  - exact Hcount.
Defined.

(** ** The rewrite loop on the heap *)

(** X10: the loop of [collectRemoteExtensions] rewrites a document once for
    each descriptor that references it, in discovery order and with that
    descriptor's package name; it creates and removes no document, and a
    document no descriptor references keeps its content. *)
Theorem rewrite_loop_on_heap (ioSchemaDefs : list IoSchemaDef)
    (σ : gmap nat Document) (l : nat) :
  prependAll ioSchemaDefs σ !! l
  = (λ doc, foldl FunctionDirective.prependPkgNameToFunctionDirectives doc
              (pkg <$> filter (λ io, schemaDef io = l) ioSchemaDefs))
      <$> σ !! l
  ∧ (is_Some (prependAll ioSchemaDefs σ !! l) ↔ is_Some (σ !! l))
  ∧ (l ∉ schemaDef <$> ioSchemaDefs → prependAll ioSchemaDefs σ !! l = σ !! l).
Proof.
  assert (∀ σ' : gmap nat Document,
    prependAll ioSchemaDefs σ' !! l
    = (λ doc, foldl FunctionDirective.prependPkgNameToFunctionDirectives doc
                (pkg <$> filter (λ io, schemaDef io = l) ioSchemaDefs))
        <$> σ' !! l) as Hloop.
  { induction ioSchemaDefs as [|io rest IH]; intros σ'.
    { simpl. by destruct (σ' !! l). }
    rewrite prependAll_cons, IH.
    destruct (decide (schemaDef io = l)) as [Heq|Hne].
    - rewrite filter_cons_True by done. rewrite Heq, lookup_alter_eq.
      by destruct (σ' !! l).
    - rewrite filter_cons_False by done. by rewrite lookup_alter_ne. }
  split; [apply Hloop|]. split.
  - rewrite Hloop. apply fmap_is_Some.
  - apply prependAll_lookup_other.
Qed.

(** A document shared by the two descriptors, and one nobody references. *)
Lemma rewrite_loop_on_heap_witness :
  prependAll [mkIoSchemaDef "catalog" 0; mkIoSchemaDef "pkgB" 0]
    Demo.documents !! 1
  = Demo.documents !! 1.
Proof.
  apply (rewrite_loop_on_heap [mkIoSchemaDef "catalog" 0; mkIoSchemaDef "pkgB" 0]
           Demo.documents 1).
  compute_done.
Defined.

(** ** Fields of a built schema *)






Lemma getField_makeRemoteExecutableSchema (raw : GraphQLSchema)
    (uri t f : string) :
  getField (makeRemoteExecutableSchema raw uri) t f
  = (λ x, mkField (f_type x) (f_directives x) (RemoteDelegate uri))
      <$> getField raw t f.
Proof.
  unfold getField, getType, makeRemoteExecutableSchema. simpl.
  rewrite lookup_fmap. destruct (s_types raw !! t) as [ty|]; simpl; [|done].
  by rewrite lookup_fmap.
Qed.








(** X14: the monolith cannot be overridden.  When the legacy URL is set and
    the server is constructed, every field of the introspected monolith
    schema is in the composed schema with its introspected type, resolved by
    delegation to the legacy URL, whatever the local and remote-function
    fragments declare. *)
Theorem monolith_fields_are_delegated (w : World) (cfg : ServerConfig) :
  truthy (readVar w "LEGACY_GRAPHQL_URL") = true →
  NewApolloServer cfg ∈ events (main w) →
  ∃ raw,
    introspectSchema w (readVar w "LEGACY_GRAPHQL_URL") = inr raw
    ∧ ∀ typeName fieldName field,
        getField raw typeName fieldName = Some field →
        getField (schema cfg) typeName fieldName
        = Some (mkField (f_type field) (f_directives field)
                  (RemoteDelegate (readVar w "LEGACY_GRAPHQL_URL"))).
Proof.
  intros Hleg (le & remote & mono & pre & post & _ & _ & Hf & Hmerged & _)
    %main_server_inv.
  unfold optionalFragment in Hf. rewrite Hleg in Hf.
  destruct Hf as (fb & Hfb & ->).
  unfold getExecutableFallbackSchema, await in Hfb.
  destruct (introspectSchema w _) as [e|raw]; [done|].
  injection Hfb as <-. exists raw. split; [done|].
  intros t f field Hfield.
  rewrite (getField_mergeSchemas _ _ _ _ t f Hmerged). simpl.
  rewrite getField_makeRemoteExecutableSchema, Hfield. simpl.
  by destruct (remote ≫= _), (getField (executableSchema le) t f).
Qed.

(** With every fragment enabled: the monolith's [Query.products]. *)
Lemma monolith_fields_are_delegated_witness :
  ∃ raw,
    introspectSchema Demo.world (readVar Demo.world "LEGACY_GRAPHQL_URL")
    = inr raw
    ∧ ∀ typeName fieldName field,
        getField raw typeName fieldName = Some field →
        getField (schema Demo.serverConfig) typeName fieldName
        = Some (mkField (f_type field) (f_directives field)
                  (RemoteDelegate (readVar Demo.world "LEGACY_GRAPHQL_URL"))).
Proof.
  apply (monolith_fields_are_delegated Demo.world Demo.serverConfig).
  - reflexivity.
  - compute_done.
Defined.

(** X15: with no package published the collector still succeeds: it logs
    that it found none and returns a fragment whose only field is the
    placeholder [Query.ignoreMe] and whose only directive is [function]. *)
Theorem collector_succeeds_without_packages (w : World) :
  getAllRemoteGQLSchemas w (readVar w "ADOBE_IO_NAMESPACE") = inr [] →
  ∃ ioSchema,
    collectRemoteExtensions w
    = ([ConsoleLog ("Found 0 remote I/O GraphQL package(s):" +:+ Js.nl);
        VisitSchemaDirectives ioSchema],
       inr ioSchema)
    ∧ s_directives ioSchema = {["function"]}
    ∧ ∀ typeName fieldName field,
        getField ioSchema typeName fieldName = Some field ↔
        typeName = "Query" ∧ fieldName = "ignoreMe"
        ∧ field = mkField "String" [] DefaultResolver.
Proof.
  intros Hds. unfold collectRemoteExtensions, await. rewrite Hds.
  exists (mkSchema
            {[ "Query" :=
                 mkNamedType ObjectKind
                   {[ "ignoreMe" := mkField "String" [] DefaultResolver ]} ]}
            {[ "function" ]}).
  split; [vm_compute; reflexivity|]. split; [reflexivity|].
  intros t f field. unfold getField, getType. cbn [s_types].
  destruct (decide (t = "Query")) as [->|Ht].
  - rewrite lookup_singleton_eq. simpl.
    destruct (decide (f = "ignoreMe")) as [->|Hf].
    + rewrite lookup_singleton_eq. split; [by intros [= <-]|].
      by intros (_ & _ & ->).
    + rewrite lookup_singleton_ne by done.
      split; [done|]. by intros (_ & ? & _).
  - rewrite lookup_singleton_ne by done. simpl.
    split; [done|]. by intros (? & _).
Qed.

(** Remote functions enabled and no package published. *)
Lemma collector_succeeds_without_packages_witness :
  ∃ ioSchema,
    collectRemoteExtensions Demo.remoteOnly
    = ([ConsoleLog ("Found 0 remote I/O GraphQL package(s):" +:+ Js.nl);
        VisitSchemaDirectives ioSchema],
       inr ioSchema)
    ∧ s_directives ioSchema = {["function"]}
    ∧ ∀ typeName fieldName field,
        getField ioSchema typeName fieldName = Some field ↔
        typeName = "Query" ∧ fieldName = "ignoreMe"
        ∧ field = mkField "String" [] DefaultResolver.
Proof.
  apply (collector_succeeds_without_packages Demo.remoteOnly). reflexivity.
Defined.
